(** * CineCasal: the watchlist store, the selection engine and the challenge
    state machine of [App.tsx], the provider adapter and the rating dialog,
    embedded as pure functions over an explicit application state.

    Conventions of the embedding.
    - A JavaScript number that the program only ever uses as an integer
      (timestamps, ratings, provider ids, list lengths) is a [Z].  What
      [parseInt] and the sort comparators return is a [Num]: [NaN], an
      infinity, or an integer that a double represents; differences are
      rounded to a double.  An optional field [f?: T] is an [option T]
      ([None] is [undefined]); a field of type [T | null] is an [option T]
      whose [None] is [null].
    - [Array.prototype.sort] is embedded as V8 performs it on an array of
      fewer than 64 elements.
    - The React state of the [App] component is the record [AppState]; a
      handler reads the state of the render it was created in and returns
      the state after all its [setX] calls were applied.
    - What a handler draws from the environment is an argument of the
      embedded handler: the answer of [confirm], the strings returned by
      [crypto.randomUUID()], the readings of [Date.now()], and the draws of
      [Math.random()].  *)

From Stdlib Require Import Ascii.
From stdpp Require Import base numbers list strings gmap sorting.

Local Open Scope string_scope.
Local Open Scope Z_scope.
Local Open Scope list_scope.

(** ** types.ts *)

Inductive ViewMode := DASHBOARD | WATCHLIST | RATED | SEARCH | SETTINGS.

Inductive SortOption :=
  DATE_DESC | DATE_ASC | YEAR_DESC | YEAR_ASC | TITLE_ASC | RATING_DESC.

(** [StreamingPlatform] is the union of seven string literals and [null]. *)
Inductive StreamingPlatformName :=
  Netflix | Prime | DisneyPlus | HBO | AppleTV | Cinema | Outros.

Definition StreamingPlatform := option StreamingPlatformName.

Inductive Picker := PickerA | PickerB.

Global Instance ViewMode_eq_dec : EqDecision ViewMode.
Proof. solve_decision. Defined.
Global Instance SortOption_eq_dec : EqDecision SortOption.
Proof. solve_decision. Defined.
Global Instance StreamingPlatformName_eq_dec : EqDecision StreamingPlatformName.
Proof. solve_decision. Defined.
Global Instance Picker_eq_dec : EqDecision Picker.
Proof. solve_decision. Defined.

Module Movie.
Record t := mk {
  id : string;
  tmdbId : option Z;
  title : string;
  year : string;
  genre : list string;
  description : string;
  imageUrl : string;
  isWatched : bool;
  rating : option Z;
  userReview : option string;
  addedAt : Z;
  watchedAt : option Z;
  platform : option StreamingPlatform;
  pickedBy : option (option Picker);
  tags : option (list string)
}.

Global Instance eq_dec : EqDecision t.
Proof. solve_decision. Defined.
End Movie.

Module SearchResult.
Record t := mk {
  tmdbId : Z;
  title : string;
  year : string;
  genre : list string;
  description : string;
  posterPath : option string
}.

Global Instance eq_dec : EqDecision t.
Proof. solve_decision. Defined.
End SearchResult.

Inductive ToastType := success | error | info.

Module ToastMessage.
Record t := mk { id : string; type : ToastType; message : string }.
End ToastMessage.

(** [ChallengeRecord] is imported from types.ts by [App.tsx]; its fields are
    those of the object literal that [handleRateMovie] builds. *)
Module ChallengeRecord.
Record t := mk {
  id : string;
  movieId : string;
  movieTitle : string;
  posterPath : string;
  completedAt : Z;
  ratingGiven : Z
}.

Global Instance eq_dec : EqDecision t.
Proof. solve_decision. Defined.
End ChallengeRecord.

(** ** The state of the [App] component *)

Record AppState := mkApp {
  currentView : ViewMode;
  movies : list Movie.t;
  activeChallengeId : option string;
  challengeHistory : list ChallengeRecord.t;
  randomMovie : option Movie.t;
  battleMovies : option (Movie.t * Movie.t);
  toasts : list ToastMessage.t
}.

Definition setCurrentView (v : ViewMode) (s : AppState) : AppState :=
  mkApp v (movies s) (activeChallengeId s) (challengeHistory s)
        (randomMovie s) (battleMovies s) (toasts s).

Definition setMovies (f : list Movie.t → list Movie.t) (s : AppState) : AppState :=
  mkApp (currentView s) (f (movies s)) (activeChallengeId s) (challengeHistory s)
        (randomMovie s) (battleMovies s) (toasts s).

Definition setActiveChallengeId (a : option string) (s : AppState) : AppState :=
  mkApp (currentView s) (movies s) a (challengeHistory s)
        (randomMovie s) (battleMovies s) (toasts s).

Definition setChallengeHistory
    (f : list ChallengeRecord.t → list ChallengeRecord.t) (s : AppState) : AppState :=
  mkApp (currentView s) (movies s) (activeChallengeId s) (f (challengeHistory s))
        (randomMovie s) (battleMovies s) (toasts s).

Definition setRandomMovie (m : option Movie.t) (s : AppState) : AppState :=
  mkApp (currentView s) (movies s) (activeChallengeId s) (challengeHistory s)
        m (battleMovies s) (toasts s).

Definition setBattleMovies (b : option (Movie.t * Movie.t)) (s : AppState) : AppState :=
  mkApp (currentView s) (movies s) (activeChallengeId s) (challengeHistory s)
        (randomMovie s) b (toasts s).

Definition setToasts
    (f : list ToastMessage.t → list ToastMessage.t) (s : AppState) : AppState :=
  mkApp (currentView s) (movies s) (activeChallengeId s) (challengeHistory s)
        (randomMovie s) (battleMovies s) (f (toasts s)).

(** [Math.floor(Math.random() * n)]: [Math.random()] lies in [0, 1), so the
    index ranges over exactly [0 .. n-1]; the draw [r] stands for the random
    number and [r mod n] for the index it selects. *)
Definition randomIndex (r n : nat) : nat := (r `mod` n)%nat.

(** ** Logic functions of [App] *)

Definition addToast (toastId : string) (type : ToastType) (message : string)
    (s : AppState) : AppState :=
  setToasts (λ prev, prev ++ [ToastMessage.mk toastId type message]) s.

(** [movies.find(m => m.id === id)] and the query used by
    [activeChallengeMovie]. *)
Definition findMovie (id : string) (ms : list Movie.t) : option Movie.t :=
  snd <$> list_find (λ m, Movie.id m = id) ms.

Definition removeMovie (confirmed : bool) (toastId : string) (id : string)
    (s : AppState) : AppState :=
  if confirmed then
    let s1 := setMovies (λ prev, filter (λ m, Movie.id m ≠ id) prev) s in
    let s2 := if decide (activeChallengeId s = Some id)
              then setActiveChallengeId None s1 else s1 in
    addToast toastId info "Filme removido." s2
  else s.

(** The object spread of [handleRateMovie]:
    [{...m, isWatched: true, rating, userReview: review, watchedAt: Date.now()}]. *)
Definition markWatched (rating : Z) (review : string) (now : Z) (m : Movie.t)
    : Movie.t :=
  Movie.mk (Movie.id m) (Movie.tmdbId m) (Movie.title m) (Movie.year m)
           (Movie.genre m) (Movie.description m) (Movie.imageUrl m)
           true (Some rating) (Some review) (Movie.addedAt m) (Some now)
           (Movie.platform m) (Movie.pickedBy m) (Movie.tags m).

(** [recordId] and [toastId] are the two [crypto.randomUUID()] results, [now]
    the [Date.now()] of the challenge record and [nowAt i] the [Date.now()]
    read when the [setMovies] updater rewrites the entry at list position
    [i]. *)
Definition handleRateMovie (recordId toastId : string) (now : Z) (nowAt : nat → Z)
    (id : string) (rating : Z) (review : string) (s : AppState) : AppState :=
  let challengeWon := bool_decide (activeChallengeId s = Some id) in
  let s1 :=
    if challengeWon then
      let s' :=
        match findMovie id (movies s) with
        | Some movie =>
            setChallengeHistory
              (λ prev, ChallengeRecord.mk recordId (Movie.id movie)
                         (Movie.title movie) (Movie.imageUrl movie) now rating
                       :: prev) s
        | None => s
        end in
      setActiveChallengeId None s'
    else s in
  let s2 :=
    setMovies
      (λ prev, imap (λ i m, if decide (Movie.id m = id)
                            then markWatched rating review (nowAt i) m
                            else m) prev) s1 in
  let s3 :=
    if challengeWon then addToast toastId success "🏆 Desafio Concluído!" s2
    else addToast toastId success "Avaliação salva!" s2 in
  setCurrentView RATED s3.

Definition startChallenge (r : nat) (toastId : string) (s : AppState) : AppState :=
  let candidates := filter (λ m, Movie.isWatched m = false) (movies s) in
  if decide (length candidates = 0%nat) then
    addToast toastId error "Lista vazia!" s
  else
    match candidates !! randomIndex r (length candidates) with
    | Some challenge =>
        addToast toastId info "Desafio iniciado!"
          (setActiveChallengeId (Some (Movie.id challenge)) s)
    | None => s (* unreachable: the index is below the length *)
    end.


(** *** The battle (elimination tournament) *)

(** The rejection loop [while (idx1 === idx2) idx2 = ...] of [startBattle]:
    [draws] are the further results of [Math.random()], consumed until one
    selects an index other than [idx1]; [None] when they run out with the
    loop still spinning. *)
Fixpoint secondIndex (idx1 n : nat) (draws : list nat) : option nat :=
  match draws with
  | [] => None
  | r :: draws' =>
      if decide (idx1 = randomIndex r n) then secondIndex idx1 n draws'
      else Some (randomIndex r n)
  end.

(** [r1] is the draw of [idx1]; [draws] feed [idx2].  [None]: the draws were
    used up inside the rejection loop. *)
Definition startBattle (r1 : nat) (draws : list nat) (toastId : string)
    (s : AppState) : option AppState :=
  let contenders := filter (λ m, Movie.isWatched m = false) (movies s) in
  if decide (length contenders < 2)%nat then
    Some (addToast toastId error "Adicione mais filmes para batalhar!" s)
  else
    let idx1 := randomIndex r1 (length contenders) in
    idx2 ← secondIndex idx1 (length contenders) draws;
    c1 ← contenders !! idx1;
    c2 ← contenders !! idx2;
    Some (setBattleMovies (Some (c1, c2)) s).

(** The candidate pool of [handleBattlePick]: not watched, and different
    from the winner and from both members of the current pair. *)
Definition battlePool (winner : Movie.t) (current : Movie.t * Movie.t)
    (ms : list Movie.t) : list Movie.t :=
  filter (λ m, Movie.isWatched m = false
               ∧ Movie.id m ≠ Movie.id winner
               ∧ Movie.id m ≠ Movie.id (fst current)
               ∧ Movie.id m ≠ Movie.id (snd current)) ms.

Definition handleBattlePick (r : nat) (winner : Movie.t) (s : AppState)
    : AppState :=
  match battleMovies s with
  | None => s
  | Some current =>
      let contenders := battlePool winner current (movies s) in
      if decide (length contenders = 0%nat) then
        setRandomMovie (Some winner) (setBattleMovies None s)
      else
        match contenders !! randomIndex r (length contenders) with
        | Some nextChallenger => setBattleMovies (Some (winner, nextChallenger)) s
        | None => s (* unreachable: the index is below the length *)
        end
  end.

(** The two cards of the battle overlay: a click on the left card calls
    [handleBattlePick(battleMovies[0])], one on the right card
    [handleBattlePick(battleMovies[1])]. *)
Inductive Card := LeftCard | RightCard.

Definition clickCard (c : Card) (r : nat) (s : AppState) : AppState :=
  match battleMovies s with
  | None => s (* the overlay is not rendered *)
  | Some (m0, m1) =>
      handleBattlePick r (match c with LeftCard => m0 | RightCard => m1 end) s
  end.

(** A tournament: the successive clicks of the user, each with the draw
    that [handleBattlePick] consumes. *)
Definition playBattle (clicks : list (Card * nat)) (s : AppState) : AppState :=
  foldl (λ st cr, clickCard (fst cr) (snd cr) st) s clicks.

(** *** Backup documents *)

(** The value that [JSON.parse] returns. Numbers are the integers of the
    embedding; an object is the list of its own properties, read by key. *)
#[warnings="-register-all"]
Inductive JSON :=
| JNull
| JBool (b : bool)
| JNum (n : Z)
| JStr (s : string)
| JArr (items : list JSON)
| JObj (props : list (string * JSON)).

(** First binding of key [k]. *)
Fixpoint assoc {A} (k : string) (kvs : list (string * A)) : option A :=
  match kvs with
  | [] => None
  | (k', v) :: kvs' => if decide (k = k') then Some v else assoc k kvs'
  end.

(** [json.k] for a [json] other than [null]: [None] is [undefined]. Arrays
    and primitives have no property named [movies] or [challenges]. *)
Definition getProp (k : string) (json : JSON) : option JSON :=
  match json with
  | JObj props => assoc k props
  | _ => None
  end.

(** [ToBoolean]. *)
Definition truthy (v : option JSON) : bool :=
  match v with
  | None | Some JNull => false
  | Some (JBool b) => b
  | Some (JNum n) => bool_decide (n ≠ 0)
  | Some (JStr s) => bool_decide (s ≠ "")
  | Some (JArr _) | Some (JObj _) => true
  end.

Definition isArray (json : JSON) : bool :=
  match json with JArr _ => true | _ => false end.

(** **** What [JSON.stringify] writes for a value of each interface:
    properties holding [undefined] are left out, [null] is written. *)

Definition definedProps (props : list (string * option JSON))
    : list (string * JSON) :=
  omap (λ kv, pair (fst kv) <$> snd kv) props.

Definition platformName (p : StreamingPlatformName) : string :=
  match p with
  | Netflix => "Netflix" | Prime => "Prime" | DisneyPlus => "Disney+"
  | HBO => "HBO" | AppleTV => "AppleTV" | Cinema => "Cinema"
  | Outros => "Outros"
  end.

Definition platformToJSON (p : StreamingPlatform) : JSON :=
  match p with None => JNull | Some n => JStr (platformName n) end.

Definition pickerToJSON (p : option Picker) : JSON :=
  match p with
  | None => JNull
  | Some PickerA => JStr "A"
  | Some PickerB => JStr "B"
  end.

Definition stringsToJSON (l : list string) : JSON := JArr (JStr <$> l).

Definition movieProps (m : Movie.t) : list (string * option JSON) :=
  [ ("id", Some (JStr (Movie.id m)));
    ("tmdbId", JNum <$> Movie.tmdbId m);
    ("title", Some (JStr (Movie.title m)));
    ("year", Some (JStr (Movie.year m)));
    ("genre", Some (stringsToJSON (Movie.genre m)));
    ("description", Some (JStr (Movie.description m)));
    ("imageUrl", Some (JStr (Movie.imageUrl m)));
    ("isWatched", Some (JBool (Movie.isWatched m)));
    ("rating", JNum <$> Movie.rating m);
    ("userReview", JStr <$> Movie.userReview m);
    ("addedAt", Some (JNum (Movie.addedAt m)));
    ("watchedAt", JNum <$> Movie.watchedAt m);
    ("platform", platformToJSON <$> Movie.platform m);
    ("pickedBy", pickerToJSON <$> Movie.pickedBy m);
    ("tags", stringsToJSON <$> Movie.tags m) ].

Definition movieToJSON (m : Movie.t) : JSON := JObj (definedProps (movieProps m)).

Definition recordToJSON (c : ChallengeRecord.t) : JSON :=
  JObj [ ("id", JStr (ChallengeRecord.id c));
         ("movieId", JStr (ChallengeRecord.movieId c));
         ("movieTitle", JStr (ChallengeRecord.movieTitle c));
         ("posterPath", JStr (ChallengeRecord.posterPath c));
         ("completedAt", JNum (ChallengeRecord.completedAt c));
         ("ratingGiven", JNum (ChallengeRecord.ratingGiven c)) ].

(** **** Reading a parsed value through the interfaces of types.ts: the
    typed view of a value that the program stores without checking it.
    [None]: the value does not have the declared type. *)

Definition asString (j : JSON) : option string :=
  match j with JStr s => Some s | _ => None end.

Definition asNumber (j : JSON) : option Z :=
  match j with JNum n => Some n | _ => None end.

Definition asBoolean (j : JSON) : option bool :=
  match j with JBool b => Some b | _ => None end.

Definition asArrayOf {A} (f : JSON → option A) (j : JSON) : option (list A) :=
  match j with JArr items => mapM f items | _ => None end.

Definition platformNames : list StreamingPlatformName :=
  [Netflix; Prime; DisneyPlus; HBO; AppleTV; Cinema; Outros].

Definition asPlatform (j : JSON) : option StreamingPlatform :=
  match j with
  | JNull => Some None
  | JStr s => Some <$> (snd <$> list_find (λ n, platformName n = s) platformNames)
  | _ => None
  end.

Definition asPicker (j : JSON) : option (option Picker) :=
  match j with
  | JNull => Some None
  | JStr s => if decide (s = "A") then Some (Some PickerA)
              else if decide (s = "B") then Some (Some PickerB) else None
  | _ => None
  end.

(** A required property. *)
Definition req {A} (k : string) (f : JSON → option A)
    (props : list (string * JSON)) : option A :=
  assoc k props ≫= f.

(** An optional property [k?: T]: absent, or of type [T]. *)
Definition opt {A} (k : string) (f : JSON → option A)
    (props : list (string * JSON)) : option (option A) :=
  match assoc k props with
  | None => Some None
  | Some j => Some <$> f j
  end.

Definition asMovie (j : JSON) : option Movie.t :=
  match j with
  | JObj props =>
      id ← req "id" asString props;
      tmdbId ← opt "tmdbId" asNumber props;
      title ← req "title" asString props;
      year ← req "year" asString props;
      genre ← req "genre" (asArrayOf asString) props;
      description ← req "description" asString props;
      imageUrl ← req "imageUrl" asString props;
      isWatched ← req "isWatched" asBoolean props;
      rating ← opt "rating" asNumber props;
      userReview ← opt "userReview" asString props;
      addedAt ← req "addedAt" asNumber props;
      watchedAt ← opt "watchedAt" asNumber props;
      platform ← opt "platform" asPlatform props;
      pickedBy ← opt "pickedBy" asPicker props;
      tags ← opt "tags" (asArrayOf asString) props;
      Some (Movie.mk id tmdbId title year genre description imageUrl isWatched
                     rating userReview addedAt watchedAt platform pickedBy tags)
  | _ => None
  end.

Definition asChallengeRecord (j : JSON) : option ChallengeRecord.t :=
  match j with
  | JObj props =>
      id ← req "id" asString props;
      movieId ← req "movieId" asString props;
      movieTitle ← req "movieTitle" asString props;
      posterPath ← req "posterPath" asString props;
      completedAt ← req "completedAt" asNumber props;
      ratingGiven ← req "ratingGiven" asNumber props;
      Some (ChallengeRecord.mk id movieId movieTitle posterPath completedAt
                               ratingGiven)
  | _ => None
  end.

(** **** [exportData] and [importData] *)

(** The document handed to the download link, as the value that
    [JSON.parse] reads back from the text [JSON.stringify] wrote; the state
    only gains the toast. *)
Definition exportData (toastId : string) (s : AppState) : JSON * AppState :=
  (JObj [ ("movies", JArr (movieToJSON <$> movies s));
          ("challenges", JArr (recordToJSON <$> challengeHistory s)) ],
   addToast toastId success "Backup salvo!" s).

(** [file] is [None] when no file was chosen, [Some None] when [JSON.parse]
    throws on its text and [Some (Some json)] otherwise.  The result is
    [None] when the handler stored a value that is not a [Movie[]] or a
    [ChallengeRecord[]]: such a state has no typed view. *)
Definition importData (toastId : string) (file : option (option JSON))
    (s : AppState) : option AppState :=
  match file with
  | None => Some s
  | Some None => Some (addToast toastId error "Erro ao importar." s)
  | Some (Some JNull) =>
      (* [json.movies] throws a TypeError, caught like any other *)
      Some (addToast toastId error "Erro ao importar." s)
  | Some (Some json) =>
      if truthy (getProp "movies" json) || isArray json then
        let payload :=
          match getProp "movies" json with
          | Some v => if truthy (Some v) then v else json
          | None => json
          end in
        ms ← asArrayOf asMovie payload;
        s1 ← (if truthy (getProp "challenges" json) then
                 cs ← getProp "challenges" json ≫= asArrayOf asChallengeRecord;
                 Some (setChallengeHistory (λ _, cs) (setMovies (λ _, ms) s))
               else Some (setMovies (λ _, ms) s));
        Some (setCurrentView DASHBOARD
                (addToast toastId success "Dados restaurados!" s1))
      else
        Some (addToast toastId error "Erro ao importar." s)
  end.

(** ** Selection engine: the watchlist filters and sorts *)

(** A JavaScript number as the comparators produce it: [NaN], an infinity,
    or an integer (one that a double represents; [-0] is [0]). *)
Inductive Num := NaN | Int (z : Z) | Infinity (negative : bool).

Global Instance Num_eq_dec : EqDecision Num.
Proof. solve_decision. Defined.

(** The double nearest to the integer [n] (round to nearest, ties to even):
    integers below [2^53] in magnitude are doubles; a larger one keeps its
    53 leading bits, rounded; from [2^1024] on the result is an infinity. *)
Definition toDouble (n : Z) : Num :=
  let a := Z.abs n in
  if bool_decide (a < 2 ^ 53) then Int n
  else
    let e := Z.log2 a - 52 in
    let q := a ≫ e in
    let r := a `mod` 2 ^ e in
    let half := 2 ^ (e - 1) in
    let q' := if bool_decide (half < r ∨ (r = half ∧ Z.odd q = true))
              then q + 1 else q in
    if bool_decide (2 ^ 1024 ≤ q' * 2 ^ e) then Infinity (bool_decide (n < 0))
    else Int (Z.sgn n * (q' * 2 ^ e)).

(** [x - y] on doubles: the exact difference, rounded. *)
Definition numSub (x y : Num) : Num :=
  match x, y with
  | Int a, Int b => toDouble (a - b)
  | Infinity negative, Int _ => Infinity negative
  | Int _, Infinity negative => Infinity (negb negative)
  | Infinity n1, Infinity n2 => if bool_decide (n1 = n2) then NaN else Infinity n1
  | _, _ => NaN
  end.

(** [v < 0]. *)
Definition isNegative (v : Num) : Prop :=
  match v with
  | NaN => False
  | Int z => z < 0
  | Infinity negative => negative = true
  end.

Global Instance isNegative_dec v : Decision (isNegative v).
Proof. destruct v; simpl; apply _. Defined.

(** The sign of [v]: -1, 0 or 1. *)
Definition numSign (v : Num) : Z :=
  match v with
  | NaN => 0
  | Int z => Z.sgn z
  | Infinity negative => if negative then -1 else 1
  end.

(** The white space that [parseInt] skips ([StrWhiteSpaceChar]), on the
    UTF-8 bytes of the string: TAB, LF, VT, FF, CR, SP, U+00A0, U+1680,
    U+2000..U+200A, U+2028, U+2029, U+202F, U+205F, U+3000 and U+FEFF.
    Returns the rest of the string after one such character. *)
Definition skipWhiteSpaceChar (s : string) : option string :=
  match s with
  | String c0 s0 =>
      let b0 := N_of_ascii c0 in
      if bool_decide (b0 ∈ [9; 10; 11; 12; 13; 32]%N) then Some s0
      else match s0 with
      | String c1 s1 =>
          let b1 := N_of_ascii c1 in
          if bool_decide (b0 = 194 ∧ b1 = 160)%N then Some s1
          else match s1 with
          | String c2 s2 =>
              let b2 := N_of_ascii c2 in
              if bool_decide
                   ((b0 = 225 ∧ b1 = 154 ∧ b2 = 128)
                    ∨ (b0 = 226 ∧ b1 = 128
                       ∧ (128 ≤ b2 ≤ 138 ∨ b2 = 168 ∨ b2 = 169 ∨ b2 = 175))
                    ∨ (b0 = 226 ∧ b1 = 129 ∧ b2 = 159)
                    ∨ (b0 = 227 ∧ b1 = 128 ∧ b2 = 128)
                    ∨ (b0 = 239 ∧ b1 = 187 ∧ b2 = 191))%N
              then Some s2 else None
          | _ => None
          end
      | _ => None
      end
  | EmptyString => None
  end.

(** Leading white space removed; [fuel] bounds the number of characters. *)
Fixpoint trimStart (fuel : nat) (s : string) : string :=
  match fuel with
  | O => s
  | S fuel' =>
      match skipWhiteSpaceChar s with
      | Some s' => trimStart fuel' s'
      | None => s
      end
  end.

(** The value of [c] as a digit of the given radix. *)
Definition digitValue (radix : Z) (c : ascii) : option Z :=
  let n := Z.of_N (N_of_ascii c) in
  let v := if bool_decide (48 ≤ n ≤ 57) then Some (n - 48)
           else if bool_decide (97 ≤ n ≤ 122) then Some (n - 87)
           else if bool_decide (65 ≤ n ≤ 90) then Some (n - 55)
           else None in
  v ≫= λ d, if bool_decide (d < radix) then Some d else None.

(** The value of the longest prefix of digits; [acc] is [None] until a
    first digit was read. *)
Fixpoint parseDigits (radix : Z) (acc : option Z) (s : string) : option Z :=
  match s with
  | EmptyString => acc
  | String c s' =>
      match digitValue radix c with
      | Some d => parseDigits radix (Some (default 0 acc * radix + d)) s'
      | None => acc
      end
  end.

(** [parseInt(s)] without a radix argument: white space, a sign, an
    optional [0x]/[0X] that selects radix 16, then digits; [NaN] when no
    digit follows, else the double nearest to the integer written (past
    the 20th significant digit the language allows an approximation of the
    integer; the embedding rounds the integer itself). *)
Definition parseInt (s : string) : Num :=
  let s1 := trimStart (String.length s) s in
  let '(sign, s2) :=
    match s1 with
    | String "-"%char rest => (-1, rest)
    | String "+"%char rest => (1, rest)
    | _ => (1, s1)
    end in
  let '(radix, s3) :=
    match s2 with
    | String "0"%char (String "x"%char rest)
    | String "0"%char (String "X"%char rest) => (16, rest)
    | _ => (10, s2)
    end in
  match parseDigits radix None s3 with
  | Some v => toDouble (sign * v)
  | None => NaN
  end.

(** [streamingFilter : StreamingPlatform | 'ALL']. *)
Inductive StreamingFilter := ALL | Only (p : StreamingPlatform).

Global Instance StreamingFilter_eq_dec : EqDecision StreamingFilter.
Proof. solve_decision. Defined.

(** [SortCompare] of [Array.prototype.sort] with a comparator: a [NaN]
    result counts as [+0]. *)
Definition sortCompare {A} (comparefn : A → A → Num) (x y : A) : Num :=
  match comparefn x y with
  | NaN => Int 0
  | v => v
  end.

(** [order < 0] for [order = SortCompare(x, y)]: [x] has to come before
    [y]. *)
Definition precedes {A} (comparefn : A → A → Num) (x y : A) : Prop :=
  isNegative (sortCompare comparefn x y).

Global Instance precedes_dec {A} (comparefn : A → A → Num) x y :
  Decision (precedes comparefn x y).
Proof. unfold precedes. apply _. Defined.

(** [Array.prototype.sort] is a stable sort. The embedding follows the
    procedure of V8 for an array of fewer than 64 elements, which is a
    single run: the longest run at the start that is ascending or strictly
    descending is found (and reversed when descending), then every further
    element is put in place by a binary search of its insertion point. On
    a longer array V8 merges several such runs; the result is the same
    whenever the comparator is consistent, and implementation-defined
    otherwise. *)
Section Sort.
Context {A : Type} (comparefn : A → A → Num).

(** The rest of an ascending run: elements are taken as long as none has to
    come before its predecessor. Returns the run and what follows it. *)
Fixpoint ascendingRun (previousElement : A) (rest : list A) : list A * list A :=
  match rest with
  | [] => ([], [])
  | currentElement :: rest' =>
      if decide (precedes comparefn currentElement previousElement)
      then ([], rest)
      else
        let '(run, remaining) := ascendingRun currentElement rest' in
        (currentElement :: run, remaining)
  end.

(** The rest of a strictly descending run. *)
Fixpoint descendingRun (previousElement : A) (rest : list A) : list A * list A :=
  match rest with
  | [] => ([], [])
  | currentElement :: rest' =>
      if decide (precedes comparefn currentElement previousElement)
      then
        let '(run, remaining) := descendingRun currentElement rest' in
        (currentElement :: run, remaining)
      else ([], rest)
  end.

(** The initial run, made ascending, and the elements after it. *)
Definition countRunAndMakeAscending (workArray : list A) : list A * list A :=
  match workArray with
  | [] => ([], [])
  | [x] => ([x], [])
  | elementHigh :: elementLow :: rest =>
      if decide (precedes comparefn elementLow elementHigh) then
        let '(run, remaining) := descendingRun elementLow rest in
        (reverse (elementHigh :: elementLow :: run), remaining)
      else
        let '(run, remaining) := ascendingRun elementLow rest in
        (elementHigh :: elementLow :: run, remaining)
  end.

(** The binary search of [BinaryInsertionSort]:
    [while (left < right) { mid = left + ((right - left) >> 1);
       if (order(pivot, a[mid]) < 0) right = mid; else left = mid + 1; }].
    [fuel] bounds the number of iterations. *)
Fixpoint insertionPoint (fuel : nat) (pivot : A) (sorted : list A)
    (left right : nat) : nat :=
  match fuel with
  | O => left
  | S fuel' =>
      if decide (left < right)%nat then
        let mid := (left + (right - left) / 2)%nat in
        match sorted !! mid with
        | Some element =>
            if decide (precedes comparefn pivot element)
            then insertionPoint fuel' pivot sorted left mid
            else insertionPoint fuel' pivot sorted (mid + 1)%nat right
        | None => left
        end
      else left
  end.

(** The pivot is moved to its insertion point in the sorted part before it. *)
Definition binaryInsert (sorted : list A) (pivot : A) : list A :=
  let left := insertionPoint (length sorted) pivot sorted 0 (length sorted) in
  take left sorted ++ pivot :: drop left sorted.

(** [[...l].sort(comparefn)]. *)
Definition sort (l : list A) : list A :=
  let '(run, remaining) := countRunAndMakeAscending l in
  foldl binaryInsert run remaining.
End Sort.

Section Watchlist.
(** [String.prototype.localeCompare], provided by the host. *)
Variable localeCompare : string → string → Z.

Definition watchlistCompare (watchlistSort : SortOption) (a b : Movie.t) : Num :=
  match watchlistSort with
  | TITLE_ASC => Int (localeCompare (Movie.title a) (Movie.title b))
  | YEAR_DESC => numSub (parseInt (Movie.year b)) (parseInt (Movie.year a))
  | YEAR_ASC => numSub (parseInt (Movie.year a)) (parseInt (Movie.year b))
  | DATE_ASC => toDouble (Movie.addedAt a - Movie.addedAt b)
  | _ => toDouble (Movie.addedAt b - Movie.addedAt a)
  end.

Definition rawWatchList (ms : list Movie.t) : list Movie.t :=
  filter (λ m, Movie.isWatched m = false) ms.

Definition filteredWatchlist (streamingFilter : StreamingFilter)
    (genreFilter : string) (ms : list Movie.t) : list Movie.t :=
  let filtered := rawWatchList ms in
  let filtered :=
    match streamingFilter with
    | ALL => filtered
    | Only p => filter (λ m, Movie.platform m = Some p) filtered
    end in
  if decide (genreFilter ≠ "ALL")
  then filter (λ m, genreFilter ∈ Movie.genre m) filtered
  else filtered.

Definition sortedWatchlist (watchlistSort : SortOption)
    (streamingFilter : StreamingFilter) (genreFilter : string)
    (ms : list Movie.t) : list Movie.t :=
  sort (watchlistCompare watchlistSort)
       (filteredWatchlist streamingFilter genreFilter ms).
End Watchlist.

(** ** The provider adapter (TMDB service) *)

(** An element of [data.results], with the properties the adapter reads.
    [None] is [undefined] or [null]. *)
Module Item.
Record t := mk {
  id : Z;
  title : string;
  release_date : option string;
  genre_ids : option (list Z);
  overview : option string;
  poster_path : option string
}.
End Item.

Definition GENRES : gmap Z string :=
  list_to_map
    [ (28, "Ação"); (12, "Aventura"); (16, "Animação"); (35, "Comédia");
      (80, "Crime"); (99, "Documentário"); (18, "Drama"); (10751, "Família");
      (14, "Fantasia"); (36, "História"); (27, "Terror"); (10402, "Música");
      (9648, "Mistério"); (10749, "Romance"); (878, "Ficção");
      (10770, "TV Movie"); (53, "Thriller"); (10752, "Guerra");
      (37, "Faroeste") ].

(** [ToBoolean] of a string that may be [undefined] or [null]. *)
Definition truthyString (o : option string) : Prop :=
  match o with Some s => s ≠ "" | None => False end.

Global Instance truthyString_dec o : Decision (truthyString o).
Proof. destruct o; simpl; apply _. Defined.

(** [ids.map(id => GENRES[id]).filter(Boolean).slice(0, 3)]. *)
Definition getGenreNames (ids : list Z) : list string :=
  take 3 (omap (λ name : option string,
                  if decide (truthyString name) then name else None)
               ((λ id, GENRES !! id) <$> ids)).

(** [s.split('-')[0]]. *)
Fixpoint beforeDash (s : string) : string :=
  match s with
  | EmptyString => EmptyString
  | String c s' => if decide (c = "-"%char) then EmptyString
                   else String c (beforeDash s')
  end.

Definition releaseYear (release_date : option string) : string :=
  if decide (truthyString release_date)
  then beforeDash (default "" release_date) else "N/A".

Definition mapResults (results : list Item.t) (existingMovies : list Movie.t)
    : list SearchResult.t :=
  let existingIds : gset (option Z) :=
    list_to_set (Movie.tmdbId <$> existingMovies) in
  (λ item,
     SearchResult.mk (Item.id item) (Item.title item)
       (releaseYear (Item.release_date item))
       (getGenreNames (default [] (Item.genre_ids item)))
       (if decide (truthyString (Item.overview item))
        then default "" (Item.overview item)
        else "Sugestão baseada nos seus gostos.")
       (Item.poster_path item))
  <$> take 6
        (filter (λ item, (Some (Item.id item) ∉ existingIds)
                         ∧ truthyString (Item.poster_path item))
                results).

(** A good rating and a provider id: [(m.rating || 0) >= 4 && m.tmdbId]. *)
Definition hasTmdbId (m : Movie.t) : Prop :=
  match Movie.tmdbId m with Some n => n ≠ 0 | None => False end.

Global Instance hasTmdbId_dec m : Decision (hasTmdbId m).
Proof. unfold hasTmdbId. destruct (Movie.tmdbId m); apply _. Defined.

Section Provider.
(** The two requests, each answering with [data.results]; [None] stands
    for anything that makes the [try] block throw (a failed [fetch], a
    body without a [results] list). *)
Variable fetchPopular : option (list Item.t).
Variable fetchRecommendations : Z → option (list Item.t).

(** [r] is the draw that selects the seed movie. *)
Definition getRecommendations (r : nat) (watchedMovies allMovies : list Movie.t)
    (apiKey : string) : list SearchResult.t :=
  if decide (apiKey = "") then []
  else
    let goodMovies :=
      filter (λ m, (4 ≤ default 0 (Movie.rating m)) ∧ hasTmdbId m)
             watchedMovies in
    let sourceList :=
      if decide (0 < length goodMovies)%nat then goodMovies
      else filter hasTmdbId watchedMovies in
    if decide (length sourceList = 0%nat) then
      match fetchPopular with
      | Some results => mapResults results allMovies
      | None => []
      end
    else
      match sourceList !! randomIndex r (length sourceList) with
      | Some seedMovie =>
          match fetchRecommendations (default 0 (Movie.tmdbId seedMovie)) with
          | Some results => mapResults results allMovies
          | None => []
          end
      | None => [] (* unreachable: the index is below the length *)
      end.
End Provider.

(** ** The rating dialog ([RatingModal]) *)

Module RatingModal.
(** The three [useState] cells of the component. *)
Record State := mkState { rating : Z; review : string; hoverRating : Z }.

(** [useState(0)], [useState("")], [useState(0)]. *)
Definition initial : State := mkState 0 "" 0.

(** The star buttons are rendered from this list. *)
Definition stars : list Z := [1; 2; 3; 4; 5].

(** What the user can do with the rendered dialog; a star is named by its
    position in [stars]. *)
Inductive Event :=
| MouseEnterStar (i : nat)
| MouseLeaveStar (i : nat)
| ClickStar (i : nat)
| ChangeReview (text : string)
| ClickCancel
| ClickSubmit.

(** The calls the dialog makes on its props. *)
Inductive Call :=
| onSave (id : string) (rating : Z) (review : string)
| onClose.

Global Instance Call_eq_dec : EqDecision Call.
Proof. solve_decision. Defined.

(** [handleSubmit]. *)
Definition handleSubmit (movie : Movie.t) (st : State) : list Call :=
  [onSave (Movie.id movie) (rating st) (review st); onClose].

(** One event on the open dialog: the new state and the calls made. A
    position without a button and the submit button while
    [disabled={rating === 0}] trigger nothing. *)
Definition step (movie : Movie.t) (st : State) (e : Event) : State * list Call :=
  match e with
  | MouseEnterStar i =>
      match stars !! i with
      | Some star => (mkState (rating st) (review st) star, [])
      | None => (st, [])
      end
  | MouseLeaveStar i =>
      match stars !! i with
      | Some _ => (mkState (rating st) (review st) 0, [])
      | None => (st, [])
      end
  | ClickStar i =>
      match stars !! i with
      | Some star => (mkState star (review st) (hoverRating st), [])
      | None => (st, [])
      end
  | ChangeReview text => (mkState (rating st) text (hoverRating st), [])
  | ClickCancel => (st, [onClose])
  | ClickSubmit =>
      if decide (rating st = 0) then (st, []) else (st, handleSubmit movie st)
  end.

(** A session with the dialog: the final state and every call made. The
    parent unmounts the dialog when [onClose] is called, which ends the
    session. *)
Fixpoint run (movie : Movie.t) (st : State) (es : list Event)
    : State * list Call :=
  match es with
  | [] => (st, [])
  | e :: es' =>
      let '(st1, calls1) := step movie st e in
      if decide (onClose ∈ calls1) then (st1, calls1)
      else let '(st2, calls2) := run movie st1 es' in (st2, calls1 ++ calls2)
  end.
End RatingModal.

(** ** Invariants and sample data used by the statements *)

(** The cross-entity invariant of the challenge state machine: the active
    challenge, when present, names an entry of the list. *)
Definition challengeLive (s : AppState) : Prop :=
  ∀ a, activeChallengeId s = Some a → is_Some (findMovie a (movies s)).

(** The not-watched pool that [startChallenge] and [startBattle] draw from. *)
Definition notWatched (ms : list Movie.t) : list Movie.t :=
  filter (λ m, Movie.isWatched m = false) ms.

(** An object that conforms to [Movie], fresh from [addToWatchlist]. *)
Definition sampleMovie (id title year : string) (genre : list string)
    (addedAt : Z) (platform : StreamingPlatform) : Movie.t :=
  Movie.mk id None title year genre "" "" false None None addedAt None
           (Some platform) (Some None) (Some []).

Definition alien : Movie.t :=
  sampleMovie "a" "Alien" "1979" ["Terror"; "Ficção"] 10 (Some Netflix).
Definition brazil : Movie.t :=
  sampleMovie "b" "Brazil" "N/A" ["Drama"; "Comédia"] 20 (Some Prime).
Definition casablanca : Movie.t :=
  sampleMovie "c" "Casablanca" "1942" ["Drama"; "Romance"] 30 (Some Netflix).
Definition dune : Movie.t :=
  sampleMovie "d" "Dune" "2021" ["Ação"] 40 None.

(** An entry that came from the provider, and a provider answer of eight
    results: one already listed, one without a poster. *)
Definition eraserhead : Movie.t :=
  Movie.mk "e" (Some 3) "Eraserhead" "1977" ["Terror"] "" "/e.jpg" false None
           None 50 None (Some None) (Some None) (Some []).

Definition sampleItem (id : Z) (poster_path : option string) : Item.t :=
  Item.mk id "T" (Some "2020-05-01") (Some [18; 35; 28; 12]) None poster_path.

Definition sampleResults : list Item.t :=
  [ sampleItem 1 (Some "/1.jpg"); sampleItem 2 None; sampleItem 3 (Some "/3.jpg");
    sampleItem 4 (Some "/4.jpg"); sampleItem 5 (Some "/5.jpg");
    sampleItem 6 (Some "/6.jpg"); sampleItem 7 (Some "/7.jpg");
    sampleItem 8 (Some "/8.jpg"); sampleItem 9 (Some "/9.jpg") ].

Definition emptyApp (ms : list Movie.t) : AppState :=
  mkApp DASHBOARD ms None [] None None [].

Definition sampleRecord : ChallengeRecord.t :=
  ChallengeRecord.mk "r1" "a" "Alien" "" 50 4.

(** Three not-watched entries with pairwise different ids. *)
Definition threeContenders (ms : list Movie.t) : Prop :=
  ∃ a b c, a ∈ notWatched ms ∧ b ∈ notWatched ms ∧ c ∈ notWatched ms
    ∧ Movie.id a ≠ Movie.id b ∧ Movie.id a ≠ Movie.id c
    ∧ Movie.id b ≠ Movie.id c.

(** The parsed release year of [a] is at least that of [b], both being
    integers; and the converse order. *)
Definition yearGe (a b : Movie.t) : Prop :=
  ∃ ya yb, parseInt (Movie.year a) = Int ya ∧ parseInt (Movie.year b) = Int yb
    ∧ yb ≤ ya.

Definition yearLe (a b : Movie.t) : Prop := yearGe b a.

(** A stand-in for the host's [localeCompare] in closed examples that do not
    sort by title. *)
Definition noCollation : string → string → Z := λ _ _, 0.

(** ** Further code of [App.tsx] *)

(** *** Helper functions *)

Definition TMDB_IMAGE_BASE : string := "https://image.tmdb.org/t/p/w500".

Definition noImage : string :=
  "https://via.placeholder.com/400x600?text=No+Image".

(** [getImageUrl(path)] for [path : string | undefined | null]. *)
Definition getImageUrl (path : option string) : string :=
  match path with
  | None => noImage
  | Some p =>
      if decide (p = "") then noImage
      else if String.prefix "http" p then p
      else
        let safePath := if String.prefix "/" p then p else "/" +:+ p in
        TMDB_IMAGE_BASE +:+ safePath
  end.

(** *** The remaining state cells of [App] that the handlers below write *)

Record Session := mkSession {
  store : AppState;
  tmdbKey : string;
  searchQuery : string;
  searchResults : list SearchResult.t;
  recommendations : list SearchResult.t;
  isLoadingRecommendations : bool
}.


Definition removeToast (id : string) (s : AppState) : AppState :=
  setToasts (λ prev, filter (λ t, ToastMessage.id t ≠ id) prev) s.

(** The object literal of [addToWatchlist]; [rating], [userReview] and
    [watchedAt] are not set. *)
Definition newMovie (id : string) (now : Z) (result : SearchResult.t) : Movie.t :=
  Movie.mk id (Some (SearchResult.tmdbId result)) (SearchResult.title result)
           (SearchResult.year result) (SearchResult.genre result)
           (SearchResult.description result)
           (if decide (truthyString (SearchResult.posterPath result))
            then default "" (SearchResult.posterPath result) else "")
           false None None now None (Some None) (Some None) (Some []).

(** [newId] and [toastId] are the two [crypto.randomUUID()] results and
    [now] is [Date.now()]. *)
Definition addToWatchlist (newId toastId : string) (now : Z)
    (result : SearchResult.t) (ss : Session) : Session :=
  mkSession
    (setCurrentView WATCHLIST
       (addToast toastId success (SearchResult.title result +:+ " adicionado!")
          (setMovies (λ prev, newMovie newId now result :: prev) (store ss))))
    (tmdbKey ss)
    ""
    []
    (filter (λ r, SearchResult.tmdbId r ≠ SearchResult.tmdbId result)
            (recommendations ss))
    (isLoadingRecommendations ss).

(** [Partial<Movie>]: the properties an update object carries. [None]: the
    property is not in the object; [Some v]: it is, with value [v]. *)
Module PartialMovie.
Record t := mk {
  id : option string;
  tmdbId : option (option Z);
  title : option string;
  year : option string;
  genre : option (list string);
  description : option string;
  imageUrl : option string;
  isWatched : option bool;
  rating : option (option Z);
  userReview : option (option string);
  addedAt : option Z;
  watchedAt : option (option Z);
  platform : option (option StreamingPlatform);
  pickedBy : option (option (option Picker));
  tags : option (option (list string))
}.

(** [{}]. *)
Definition empty : t :=
  mk None None None None None None None None None None None None None None None.
End PartialMovie.

(** [{ ...m, ...updates }]. *)
Definition spread (m : Movie.t) (updates : PartialMovie.t) : Movie.t :=
  Movie.mk
    (default (Movie.id m) (PartialMovie.id updates))
    (default (Movie.tmdbId m) (PartialMovie.tmdbId updates))
    (default (Movie.title m) (PartialMovie.title updates))
    (default (Movie.year m) (PartialMovie.year updates))
    (default (Movie.genre m) (PartialMovie.genre updates))
    (default (Movie.description m) (PartialMovie.description updates))
    (default (Movie.imageUrl m) (PartialMovie.imageUrl updates))
    (default (Movie.isWatched m) (PartialMovie.isWatched updates))
    (default (Movie.rating m) (PartialMovie.rating updates))
    (default (Movie.userReview m) (PartialMovie.userReview updates))
    (default (Movie.addedAt m) (PartialMovie.addedAt updates))
    (default (Movie.watchedAt m) (PartialMovie.watchedAt updates))
    (default (Movie.platform m) (PartialMovie.platform updates))
    (default (Movie.pickedBy m) (PartialMovie.pickedBy updates))
    (default (Movie.tags m) (PartialMovie.tags updates)).

Definition updateMovie (toastId : string) (id : string)
    (updates : PartialMovie.t) (s : AppState) : AppState :=
  addToast toastId success "Atualizado."
    (setMovies (λ prev, (λ m, if decide (Movie.id m = id)
                              then spread m updates else m) <$> prev) s).



(** *** [EditMovieModal] *)

(** The four state cells of the dialog. The platform ranges over the
    values of [StreamingPlatform]; the empty string that the first option
    of the select box yields is outside that type and is not part of the
    embedding. *)
Module EditMovieModal.
Record State := mkState {
  title : string;
  year : string;
  imageUrl : string;
  platform : StreamingPlatform
}.

(** The four [useState] initialisers; [movie.platform || null]. *)
Definition initial (movie : Movie.t) : State :=
  mkState (Movie.title movie) (Movie.year movie) (Movie.imageUrl movie)
          (default None (Movie.platform movie)).

(** The object the "Salvar" button passes to [onSave]:
    [{ title, year, imageUrl, platform }]. *)
Definition saved (st : State) : PartialMovie.t :=
  PartialMovie.mk None None (Some (title st)) (Some (year st)) None None
    (Some (imageUrl st)) None None None None None (Some (Some (platform st)))
    None None.
End EditMovieModal.

(** [onSave={(updated) => updateMovie(editingMovie.id, updated)}]. *)
Definition saveEdit (toastId : string) (editingMovie : Movie.t)
    (st : EditMovieModal.State) (s : AppState) : AppState :=
  updateMovie toastId (Movie.id editingMovie) (EditMovieModal.saved st) s.

Section Recommendations.
(** The two provider requests, as for [getRecommendations]. *)
Variable fetchPopular : option (list Item.t).
Variable fetchRecommendations : Z → option (list Item.t).

End Recommendations.

(** *** [searchMovies] of the provider adapter *)

(** [fetchSearch query] is [data.results] of the search request, [None]
    when the [try] block throws (failed request, non-ok status, no list). *)
Definition searchMovies (fetchSearch : string → option (list Item.t))
    (query apiKey : string) : list SearchResult.t :=
  if decide (apiKey = "") then []
  else
    match fetchSearch query with
    | Some results =>
        filter (λ m, truthyString (SearchResult.posterPath m))
          ((λ item,
              SearchResult.mk (Item.id item) (Item.title item)
                (releaseYear (Item.release_date item))
                (getGenreNames (default [] (Item.genre_ids item)))
                (if decide (truthyString (Item.overview item))
                 then default "" (Item.overview item)
                 else "Sem sinopse disponível.")
                (Item.poster_path item)) <$> results)
    | None => []
    end.

(** No recommendation carries the provider id of a listed entry. *)
Definition recommendationsFresh (ss : Session) : Prop :=
  ∀ r m, r ∈ recommendations ss → m ∈ movies (store ss) →
         Movie.tmdbId m ≠ Some (SearchResult.tmdbId r).

(** The ids of the entries are pairwise different. *)
Definition uniqueIds (ms : list Movie.t) : Prop := NoDup (Movie.id <$> ms).

(** A session with a credential, two listed entries and two stored
    recommendations. *)
Definition sampleCandidate (tmdbId : Z) : SearchResult.t :=
  SearchResult.mk tmdbId "T" "2020" [] "" (Some "/p.jpg").

Definition sampleSession : Session :=
  mkSession (emptyApp [alien; eraserhead]) "key" "" []
            [sampleCandidate 4; sampleCandidate 5] false.


(** *** Derived data of [App]: the rated list, statistics, genres, pages *)

Definition rawWatchedMovies (ms : list Movie.t) : list Movie.t :=
  filter (λ m, Movie.isWatched m = true) ms.

Section Rated.
(** [String.prototype.localeCompare], provided by the host. *)
Variable localeCompare : string → string → Z.

Definition ratedCompare (ratedSort : SortOption) (a b : Movie.t) : Num :=
  match ratedSort with
  | TITLE_ASC => Int (localeCompare (Movie.title a) (Movie.title b))
  | YEAR_DESC => numSub (parseInt (Movie.year b)) (parseInt (Movie.year a))
  | YEAR_ASC => numSub (parseInt (Movie.year a)) (parseInt (Movie.year b))
  | RATING_DESC =>
      toDouble (default 0 (Movie.rating b) - default 0 (Movie.rating a))
  | DATE_ASC =>
      toDouble (default 0 (Movie.watchedAt a) - default 0 (Movie.watchedAt b))
  | _ => toDouble (default 0 (Movie.watchedAt b) - default 0 (Movie.watchedAt a))
  end.

Definition sortedRated (ratedSort : SortOption) (genreFilter : string)
    (ms : list Movie.t) : list Movie.t :=
  let filtered := rawWatchedMovies ms in
  let filtered :=
    if decide (genreFilter ≠ "ALL")
    then filter (λ m, genreFilter ∈ Movie.genre m) filtered
    else filtered in
  sort (ratedCompare ratedSort) filtered.

(** The "Roleta" button:
    [const r = sortedWatchlist[Math.floor(Math.random() * sortedWatchlist.length)];
     if (r) setRandomMovie(r)]. With an empty list the read gives
    [undefined] and nothing is set. *)
Definition pickRandom (watchlistSort : SortOption)
    (streamingFilter : StreamingFilter) (genreFilter : string) (r : nat)
    (s : AppState) : AppState :=
  let shown :=
    sortedWatchlist localeCompare watchlistSort streamingFilter genreFilter
      (movies s) in
  match shown !! randomIndex r (length shown) with
  | Some m => setRandomMovie (Some m) s
  | None => s
  end.
End Rated.

(** [dist[m.rating - 1]++] for a rating between 1 and 5. *)
Definition countRating (dist : list nat) (m : Movie.t) : list nat :=
  match Movie.rating m with
  | Some rating =>
      if decide (rating ≠ 0 ∧ 1 ≤ rating ∧ rating ≤ 5)
      then alter S (Z.to_nat (rating - 1)) dist
      else dist
  | None => dist
  end.

(** The histogram of the dashboard, for five stars down to one. *)
Definition ratingDistribution (watched : list Movie.t) : list nat :=
  reverse (foldl countRating [0; 0; 0; 0; 0]%nat watched).

(** The two operands of the average shown on the dashboard,
    [watched.reduce((acc, c) => acc + (c.rating||0), 0)] and
    [watched.length || 1]; the quotient is formatted by [toFixed(1)]. *)
Definition ratingSum (watched : list Movie.t) : Z :=
  foldl (λ acc c, acc + default 0 (Movie.rating c)) 0 watched.

Definition ratingDivisor (watched : list Movie.t) : Z :=
  if decide (length watched = 0%nat) then 1 else Z.of_nat (length watched).

Section Genres.
(** [x < y] on strings, the comparison by UTF-16 code units that the host
    provides. *)
Variable stringLess : string → string → bool.



End Genres.

(** Pages: the cards rendered are [sorted.slice(0, visibleCount)], the
    button "Carregar Mais" is rendered while [visibleCount < sorted.length]
    and adds [ITEMS_PER_PAGE]. *)
Definition ITEMS_PER_PAGE : nat := 12.

Definition visibleCards {A} (visibleCount : nat) (sorted : list A) : list A :=
  take visibleCount sorted.

Definition showsLoadMore {A} (visibleCount : nat) (sorted : list A) : Prop :=
  (visibleCount < length sorted)%nat.

Definition loadMore (visibleCount : nat) : nat :=
  (visibleCount + ITEMS_PER_PAGE)%nat.

(** *** The stored active challenge *)

(** The effect on [activeChallengeId]:
    [if (activeChallengeId) setItem(key, activeChallengeId) else removeItem(key)]. *)
Definition persistActiveChallenge (activeChallengeId : option string)
    (localStorage : gmap string string) : gmap string string :=
  match activeChallengeId with
  | Some id =>
      if decide (id ≠ "")
      then <["cinecasal_active_challenge" := id]> localStorage
      else delete "cinecasal_active_challenge" localStorage
  | None => delete "cinecasal_active_challenge" localStorage
  end.

(** The mount effect, for the state cell that starts as [null]:
    [if (savedActiveChallenge) setActiveChallengeId(savedActiveChallenge)]. *)
Definition loadActiveChallenge (localStorage : gmap string string)
    : option string :=
  match localStorage !! "cinecasal_active_challenge" with
  | Some saved => if decide (saved ≠ "") then Some saved else None
  | None => None
  end.

(** Rating order of the rated list, watch-date orders, and the addition
    orders of the watchlist. *)
Definition ratingGe (a b : Movie.t) : Prop :=
  default 0 (Movie.rating b) ≤ default 0 (Movie.rating a).

Definition watchedAtGe (a b : Movie.t) : Prop :=
  default 0 (Movie.watchedAt b) ≤ default 0 (Movie.watchedAt a).

Definition addedAtGe (a b : Movie.t) : Prop :=
  Movie.addedAt b ≤ Movie.addedAt a.

(** Watched entries with the rating [k]. *)
Definition ratedWith (k : Z) (watched : list Movie.t) : list Movie.t :=
  filter (λ m, Movie.rating m = Some k) watched.

(** The entry has a rating between 1 and 5. *)
Definition ratedInRange (m : Movie.t) : Prop :=
  match Movie.rating m with Some k => 1 ≤ k ≤ 5 | None => False end.

Global Instance ratedInRange_dec m : Decision (ratedInRange m).
Proof. unfold ratedInRange. destruct (Movie.rating m); apply _. Defined.

(** *** The user's actions on the store, as events *)

Section Events.
Variable localeCompare : string → string → Z.
Variable fetchPopular : option (list Item.t).
Variable fetchRecommendations : Z → option (list Item.t).

(** Every handler of [App] that writes the entry list, the active challenge
    or the challenge history, except [importData]; each event carries what
    its handler draws from the environment. *)
Inductive Event :=
| AddToWatchlist (newId toastId : string) (now : Z) (result : SearchResult.t)
| UpdateMovie (toastId id : string) (updates : PartialMovie.t)
| ClickPickedBy (toastId : string) (i : nat)
| SaveEdit (toastId : string) (editingMovie : Movie.t)
    (st : EditMovieModal.State)
| RemoveMovie (confirmed : bool) (toastId id : string)
| RateMovie (recordId toastId : string) (now : Z) (nowAt : nat → Z)
    (id : string) (rating : Z) (review : string)
| StartBattle (r1 : nat) (draws : list nat) (toastId : string)
| ClickCard (c : Card) (r : nat)
| CancelBattle
| PickRandom (watchlistSort : SortOption) (streamingFilter : StreamingFilter)
    (genreFilter : string) (r : nat)
| StartChallenge (r : nat) (toastId : string)
| CancelChallenge (confirmed : bool)
| GenerateRecommendations (r : nat) (toastId : string)
| DismissToast (id : string).



End Events.




(** The year string of the entry parses to a finite number. *)
Definition finiteYear (m : Movie.t) : Prop :=
  ∃ y, parseInt (Movie.year m) = Int y.

(** * Properties *)

(** ** Entry store and challenge state machine *)

Lemma findMovie_Some id ms m :
  findMovie id ms = Some m → m ∈ ms ∧ Movie.id m = id.
Proof.
  unfold findMovie. intros H.
  destruct (list_find _ ms) as [[i x]|] eqn:E; simplify_eq/=.
  apply list_find_Some in E as (Hi & Hx & _).
  split; [by eapply list_elem_of_lookup_2|done].
Qed.

Lemma findMovie_None id ms :
  findMovie id ms = None ↔ ∀ m, m ∈ ms → Movie.id m ≠ id.
Proof.
  unfold findMovie. rewrite fmap_None, list_find_None, Forall_forall. done.
Qed.

Lemma findMovie_is_Some id ms :
  is_Some (findMovie id ms) ↔ ∃ m, m ∈ ms ∧ Movie.id m = id.
Proof.
  split.
  - intros [m Hm]. exists m. by apply findMovie_Some.
  - intros (m & Hin & Hid). destruct (findMovie id ms) eqn:E; [by eexists|].
    rewrite findMovie_None in E. by destruct (E m Hin).
Qed.

(** C1 (as amended). A confirmed [removeMovie id] deletes every entry with
    that id, so a query for the id finds nothing; it clears the active
    challenge exactly when the challenge targets [id] and leaves it alone
    otherwise; an unconfirmed call changes nothing. If the active challenge
    referenced a listed entry before the removal, it still does after. *)
Theorem removeMovie_spec (toastId id : string) (s : AppState) :
  let s' := removeMovie true toastId id s in
  movies s' = filter (λ m, Movie.id m ≠ id) (movies s)
  ∧ findMovie id (movies s') = None
  ∧ (activeChallengeId s = Some id → activeChallengeId s' = None)
  ∧ (activeChallengeId s ≠ Some id → activeChallengeId s' = activeChallengeId s)
  ∧ challengeHistory s' = challengeHistory s
  ∧ removeMovie false toastId id s = s
  ∧ (challengeLive s → challengeLive s').
Proof.
  assert (Hms : movies (removeMovie true toastId id s)
                = filter (λ m, Movie.id m ≠ id) (movies s)).
  { unfold removeMovie. by case_decide. }
  assert (Hact : activeChallengeId (removeMovie true toastId id s)
                 = if decide (activeChallengeId s = Some id) then None
                   else activeChallengeId s).
  { unfold removeMovie. by case_decide. }
  cbv zeta. rewrite Hms, Hact. split_and!.
  - done.
  - apply findMovie_None. intros m Hm%list_elem_of_filter. tauto.
  - intros H. by rewrite decide_True.
  - intros H. by rewrite decide_False.
  - unfold removeMovie. by case_decide.
  - done.
  - intros Hlive a. unfold challengeLive. rewrite Hms, Hact.
    case_decide as Hd; [done|]. intros Ha.
    destruct (Hlive a Ha) as [m Hm]. apply findMovie_Some in Hm as [Hin Hid].
    apply findMovie_is_Some. exists m. split; [|done].
    apply list_elem_of_filter. split; [|done]. congruence.
Qed.

(** The invariant clause of C1 at a sample state. *)
Lemma removeMovie_spec_witness :
  challengeLive (setActiveChallengeId (Some "a") (emptyApp [alien; brazil]))
  ∧ challengeLive
      (removeMovie true "t" "b"
         (setActiveChallengeId (Some "a") (emptyApp [alien; brazil]))).
Proof.
  assert (H : challengeLive
                (setActiveChallengeId (Some "a") (emptyApp [alien; brazil]))).
  { intros a Ha. simpl in Ha. simplify_eq. by eexists. }
  split; [exact H|].
  exact (proj2 (proj2 (proj2 (proj2 (proj2 (proj2
    (removeMovie_spec "t" "b"
       (setActiveChallengeId (Some "a") (emptyApp [alien; brazil])))))))) H).
Defined.

(** C1 as stated fails: start a challenge on the only entry, restore a
    backup that holds another entry (the active challenge is kept), then
    remove that entry; the challenge is still present and names no entry. *)
Lemma removeMovie_counterexample :
  let s1 := startChallenge 0 "t1" (emptyApp [alien]) in
  ∃ s2, importData "t2" (Some (Some (JArr [movieToJSON brazil]))) s1 = Some s2
    ∧ let s' := removeMovie true "t3" "b" s2 in
      activeChallengeId s' = Some "a" ∧ findMovie "a" (movies s') = None
      ∧ ¬ challengeLive s'.
Proof.
  eexists. split; [vm_compute; reflexivity|].
  cbv zeta. split_and!; [reflexivity..|].
  intros H. destruct (H "a") as [m Hm]; [reflexivity|]. discriminate Hm.
Qed.

Lemma lookup_imap_markWatched (ms : list Movie.t) id rating review nowAt i m :
  ms !! i = Some m →
  imap (λ i m, if decide (Movie.id m = id)
               then markWatched rating review (nowAt i) m else m) ms !! i
  = Some (if decide (Movie.id m = id)
          then markWatched rating review (nowAt i) m else m).
Proof. intros H. by rewrite list_lookup_imap, H. Qed.

Lemma handleRateMovie_movies recordId toastId now nowAt id rating review s :
  movies (handleRateMovie recordId toastId now nowAt id rating review s)
  = imap (λ i m, if decide (Movie.id m = id)
                 then markWatched rating review (nowAt i) m else m) (movies s).
Proof.
  unfold handleRateMovie.
  destruct (bool_decide _); [destruct (findMovie _ _)|]; reflexivity.
Qed.

(** C2. When the active challenge is [id] and an entry with that id exists,
    [handleRateMovie id rating review] puts exactly one new record in front
    of the history, for the entry found under [id] and with
    [ratingGiven = rating]; the active challenge becomes absent; the list
    keeps its length and order, every entry with that id is marked watched
    with the rating and the review, and every other entry is unchanged. *)
Theorem handleRateMovie_completes_challenge
    (recordId toastId : string) (now : Z) (nowAt : nat → Z)
    (id : string) (rating : Z) (review : string) (s : AppState) :
  activeChallengeId s = Some id →
  (∃ m, m ∈ movies s ∧ Movie.id m = id) →
  let s' := handleRateMovie recordId toastId now nowAt id rating review s in
  (∃ movie c,
      findMovie id (movies s) = Some movie
      ∧ challengeHistory s' = c :: challengeHistory s
      ∧ c = ChallengeRecord.mk recordId (Movie.id movie) (Movie.title movie)
              (Movie.imageUrl movie) now rating
      ∧ ChallengeRecord.movieId c = id
      ∧ ChallengeRecord.ratingGiven c = rating)
  ∧ activeChallengeId s' = None
  ∧ length (movies s') = length (movies s)
  ∧ (∀ i m, movies s !! i = Some m → Movie.id m = id →
       ∃ m', movies s' !! i = Some m'
         ∧ m' = markWatched rating review (nowAt i) m
         ∧ Movie.id m' = id ∧ Movie.isWatched m' = true
         ∧ Movie.rating m' = Some rating
         ∧ Movie.userReview m' = Some review)
  ∧ (∀ i m, movies s !! i = Some m → Movie.id m ≠ id →
       movies s' !! i = Some m).
Proof.
  intros Hact Hex s'. subst s'.
  rewrite handleRateMovie_movies.
  apply findMovie_is_Some in Hex as [movie Hfind].
  destruct (findMovie_Some _ _ _ Hfind) as [_ Hid].
  split_and!.
  - exists movie. eexists. split; [done|].
    unfold handleRateMovie. rewrite Hfind, bool_decide_eq_true_2 by done.
    simpl. split_and!; done.
  - unfold handleRateMovie. rewrite Hfind, bool_decide_eq_true_2 by done. done.
  - by rewrite length_imap.
  - intros i m Hi Hm. eexists. split.
    + erewrite lookup_imap_markWatched by done. by rewrite decide_True.
    + done.
  - intros i m Hi Hm.
    erewrite lookup_imap_markWatched by done. by rewrite decide_False.
Qed.

(** The scenario of the specification: the active challenge is entry [a],
    not yet watched, and it is completed with rating 4. *)
Lemma handleRateMovie_completes_challenge_witness :
  let s := setActiveChallengeId (Some "a") (emptyApp [brazil; alien]) in
  let s' := handleRateMovie "r" "t" 50 (λ _, 51) "a" 4 "ok" s in
  challengeHistory s' = [ChallengeRecord.mk "r" "a" "Alien" "" 50 4]
  ∧ activeChallengeId s' = None
  ∧ movies s' = [brazil; markWatched 4 "ok" 51 alien].
Proof.
  pose proof (handleRateMovie_completes_challenge "r" "t" 50 (λ _, 51) "a" 4 "ok"
    (setActiveChallengeId (Some "a") (emptyApp [brazil; alien]))
    eq_refl
    (ex_intro _ alien (conj (list_elem_of_further _ _ _ (list_elem_of_here _ _)) eq_refl)))
    as (_ & Hact & _).
  cbv zeta. split_and!; [reflexivity|exact Hact|reflexivity].
Defined.



(** ** The battle *)

Lemma battlePool_nonempty (winner m0 m1 : Movie.t) (ms : list Movie.t) :
  threeContenders ms → winner = m0 ∨ winner = m1 →
  battlePool winner (m0, m1) ms ≠ [].
Proof.
  intros (a & b & c & Ha & Hb & Hc & Hab & Hac & Hbc) Hw.
  unfold notWatched in Ha, Hb, Hc.
  apply list_elem_of_filter in Ha as [Hwa Ha], Hb as [Hwb Hb], Hc as [Hwc Hc].
  assert (Hin : ∀ x, x ∈ ms → Movie.isWatched x = false →
                 Movie.id x ≠ Movie.id m0 → Movie.id x ≠ Movie.id m1 →
                 battlePool winner (m0, m1) ms ≠ []).
  { intros x Hx Hwx H0 H1 Hnil.
    assert (Hxp : x ∈ battlePool winner (m0, m1) ms).
    { unfold battlePool. apply list_elem_of_filter. simpl.
      split; [|done]. split_and!; [done| |done|done].
      destruct Hw; by subst. }
    rewrite Hnil in Hxp. by apply not_elem_of_nil in Hxp. }
  destruct (decide (Movie.id a = Movie.id m0)) as [Ea0|];
    [|destruct (decide (Movie.id a = Movie.id m1)) as [Ea1|]; [|by eauto]];
  (destruct (decide (Movie.id b = Movie.id m0)) as [Eb0|];
    [|destruct (decide (Movie.id b = Movie.id m1)) as [Eb1|]; [|by eauto]]);
  (destruct (decide (Movie.id c = Movie.id m0)) as [Ec0|];
    [|destruct (decide (Movie.id c = Movie.id m1)) as [Ec1|]; [|by eauto]]);
  congruence.
Qed.

Lemma clickCard_keeps_battle (c : Card) (r : nat) (s : AppState) :
  threeContenders (movies s) → is_Some (battleMovies s) →
  is_Some (battleMovies (clickCard c r s))
  ∧ movies (clickCard c r s) = movies s
  ∧ randomMovie (clickCard c r s) = randomMovie s.
Proof.
  intros H3 [[m0 m1] Hb]. unfold clickCard, handleBattlePick. rewrite Hb.
  set (winner := match c with LeftCard => m0 | RightCard => m1 end).
  assert (Hw : winner = m0 ∨ winner = m1) by (destruct c; auto).
  pose proof (battlePool_nonempty winner m0 m1 (movies s) H3 Hw) as Hne.
  rewrite decide_False by (by destruct (battlePool _ _ _)).
  destruct (lookup_lt_is_Some_2 (battlePool winner (m0, m1) (movies s))
              (randomIndex r (length (battlePool winner (m0, m1) (movies s)))))
    as [next Hnext].
  { unfold randomIndex. apply Nat.mod_upper_bound.
    by destruct (battlePool _ _ _). }
  rewrite Hnext. simpl. split_and!; [by eexists|done|done].
Qed.

(** C3, the defect. With three not-watched entries of pairwise different
    ids the pool of [handleBattlePick] is never empty, whichever card is
    clicked and whatever is drawn: after any number of rounds the battle
    still shows a pair and no final selection was made. *)
Theorem battle_never_selects (clicks : list (Card * nat)) (s : AppState) :
  threeContenders (movies s) → is_Some (battleMovies s) →
  is_Some (battleMovies (playBattle clicks s))
  ∧ randomMovie (playBattle clicks s) = randomMovie s
  ∧ movies (playBattle clicks s) = movies s.
Proof.
  revert s. induction clicks as [|[c r] clicks IH]; intros s H3 Hb.
  - done.
  - destruct (clickCard_keeps_battle c r s H3 Hb) as (Hb' & Hms & Hrm).
    unfold playBattle. simpl. fold (playBattle clicks (clickCard c r s)).
    destruct (IH (clickCard c r s)) as (? & ? & ?); [by rewrite Hms|done|].
    split_and!; [done|congruence|congruence].
Qed.

Lemma sample_threeContenders : threeContenders [alien; brazil; casablanca].
Proof.
  exists alien, brazil, casablanca.
  split_and!; try discriminate; unfold notWatched; apply list_elem_of_filter;
    (split; [reflexivity|]); set_solver.
Defined.

(** The failing run: three entries, [startBattle] pairs the first two, and
    the user keeps clicking the left card. *)
Lemma battle_never_selects_witness :
  ∃ s, startBattle 0 [1%nat] "t" (emptyApp [alien; brazil; casablanca]) = Some s
    ∧ battleMovies s = Some (alien, brazil)
    ∧ is_Some (battleMovies
                 (playBattle [(LeftCard, 0); (LeftCard, 0); (LeftCard, 0)]%nat s))
    ∧ randomMovie
        (playBattle [(LeftCard, 0); (LeftCard, 0); (LeftCard, 0)]%nat s) = None.
Proof.
  eexists. split; [vm_compute; reflexivity|]. split; [reflexivity|].
  destruct (battle_never_selects [(LeftCard, 0); (LeftCard, 0); (LeftCard, 0)]%nat
              (setBattleMovies (Some (alien, brazil))
                 (emptyApp [alien; brazil; casablanca]))
              sample_threeContenders (ex_intro _ (alien, brazil) eq_refl))
    as (H1 & H2 & _).
  split; [exact H1|exact H2].
Defined.

(** With exactly two contenders the first pick does reach the empty pool:
    the branch that ends the tournament exists and works for [N = 2]. *)
Lemma battle_two_contenders_ends :
  let s := setBattleMovies (Some (alien, brazil)) (emptyApp [alien; brazil]) in
  battleMovies (clickCard RightCard 0 s) = None
  ∧ randomMovie (clickCard RightCard 0 s) = Some brazil.
Proof. split; reflexivity. Qed.

(** ** Backup documents: reading back what was written *)

Lemma assoc_not_in {A} (k : string) (kvs : list (string * A)) :
  k ∉ kvs.*1 → assoc k kvs = None.
Proof.
  induction kvs as [|[k' v] kvs IH]; [done|]. simpl.
  rewrite not_elem_of_cons. intros [Hne Hnin].
  rewrite decide_False by done. by apply IH.
Qed.

Lemma assoc_definedProps (k : string) (props : list (string * option JSON)) :
  NoDup props.*1 → assoc k (definedProps props) = mjoin (assoc k props).
Proof.
  unfold definedProps.
  induction props as [|[k' v] props IH]; [done|].
  rewrite fmap_cons, NoDup_cons. intros [Hnin Hnd]. specialize (IH Hnd).
  destruct v as [j|]; simpl.
  - destruct (decide (k = k')); done.
  - change (list_omap _ _ ?f ?l) with (omap f l). rewrite IH.
    destruct (decide (k = k')) as [->|]; [|done].
    by rewrite (assoc_not_in k' props Hnin).
Qed.

Lemma movieProps_NoDup (m : Movie.t) : NoDup (movieProps m).*1.
Proof. simpl. compute_done. Qed.

Lemma req_movieProps {A} (k : string) (f : JSON → option A) (m : Movie.t) :
  req k f (definedProps (movieProps m)) = mjoin (assoc k (movieProps m)) ≫= f.
Proof. unfold req. by rewrite assoc_definedProps by apply movieProps_NoDup. Qed.

Lemma opt_movieProps {A} (k : string) (f : JSON → option A) (m : Movie.t) :
  opt k f (definedProps (movieProps m))
  = match mjoin (assoc k (movieProps m)) with
    | None => Some None
    | Some j => Some <$> f j
    end.
Proof. unfold opt. by rewrite assoc_definedProps by apply movieProps_NoDup. Qed.

Lemma asArrayOf_strings (l : list string) :
  asArrayOf asString (stringsToJSON l) = Some l.
Proof. unfold asArrayOf, stringsToJSON. by apply mapM_fmap_Some. Qed.

Lemma asPlatform_platformToJSON (p : StreamingPlatform) :
  asPlatform (platformToJSON p) = Some p.
Proof. by destruct p as [[]|]. Qed.

Lemma asPicker_pickerToJSON (p : option Picker) :
  asPicker (pickerToJSON p) = Some p.
Proof. by destruct p as [[]|]. Qed.

Lemma asMovie_movieToJSON (m : Movie.t) : asMovie (movieToJSON m) = Some m.
Proof.
  unfold asMovie, movieToJSON.
  rewrite !req_movieProps, !opt_movieProps.
  destruct m as [id tmdbId title year genre description imageUrl isWatched
                 rating userReview addedAt watchedAt platform pickedBy tags].
  change (assoc "id" (movieProps _)) with (Some (Some (JStr id))).
  change (assoc "tmdbId" (movieProps _)) with (Some (JNum <$> tmdbId)).
  change (assoc "title" (movieProps _)) with (Some (Some (JStr title))).
  change (assoc "year" (movieProps _)) with (Some (Some (JStr year))).
  change (assoc "genre" (movieProps _)) with (Some (Some (stringsToJSON genre))).
  change (assoc "description" (movieProps _))
    with (Some (Some (JStr description))).
  change (assoc "imageUrl" (movieProps _)) with (Some (Some (JStr imageUrl))).
  change (assoc "isWatched" (movieProps _)) with (Some (Some (JBool isWatched))).
  change (assoc "rating" (movieProps _)) with (Some (JNum <$> rating)).
  change (assoc "userReview" (movieProps _)) with (Some (JStr <$> userReview)).
  change (assoc "addedAt" (movieProps _)) with (Some (Some (JNum addedAt))).
  change (assoc "watchedAt" (movieProps _)) with (Some (JNum <$> watchedAt)).
  change (assoc "platform" (movieProps _))
    with (Some (platformToJSON <$> platform)).
  change (assoc "pickedBy" (movieProps _)) with (Some (pickerToJSON <$> pickedBy)).
  change (assoc "tags" (movieProps _)) with (Some (stringsToJSON <$> tags)).
  destruct tmdbId, rating, userReview, watchedAt, platform, pickedBy, tags;
    repeat (progress
      (cbn -[asArrayOf stringsToJSON asPlatform platformToJSON asPicker
             pickerToJSON];
       rewrite ?asArrayOf_strings, ?asPlatform_platformToJSON,
               ?asPicker_pickerToJSON));
    reflexivity.
Qed.

Lemma asChallengeRecord_recordToJSON (c : ChallengeRecord.t) :
  asChallengeRecord (recordToJSON c) = Some c.
Proof. by destruct c. Qed.

Lemma asMovies_movieToJSON (ms : list Movie.t) :
  asArrayOf asMovie (JArr (movieToJSON <$> ms)) = Some ms.
Proof. apply mapM_fmap_Some, asMovie_movieToJSON. Qed.

Lemma asChallenges_recordToJSON (cs : list ChallengeRecord.t) :
  asArrayOf asChallengeRecord (JArr (recordToJSON <$> cs)) = Some cs.
Proof. apply mapM_fmap_Some, asChallengeRecord_recordToJSON. Qed.

(** The typed view does not depend on the order in which an object lists
    its properties. *)
Lemma assoc_Some {A} (k : string) (v : A) (kvs : list (string * A)) :
  NoDup kvs.*1 → assoc k kvs = Some v ↔ (k, v) ∈ kvs.
Proof.
  induction kvs as [|[k' v'] kvs IH]; simpl.
  - intros _. split; [done|]. intros H. by apply not_elem_of_nil in H.
  - rewrite NoDup_cons, elem_of_cons. intros [Hnin Hnd].
    destruct (decide (k = k')) as [->|Hne].
    + split; [intros [= ->]; by left|].
      intros [[= ->]|Hin]; [done|].
      destruct Hnin. apply list_elem_of_fmap. by exists (k', v).
    + rewrite IH by done. split; [by right|].
      intros [[= -> ->]|Hin]; [done|done].
Qed.

Lemma assoc_Permutation {A} (k : string) (kvs kvs' : list (string * A)) :
  NoDup kvs.*1 → kvs ≡ₚ kvs' → assoc k kvs = assoc k kvs'.
Proof.
  intros Hnd Hperm.
  assert (Hnd' : NoDup kvs'.*1) by by rewrite <-Hperm.
  apply option_eq. intros v. rewrite !assoc_Some by done. by rewrite Hperm.
Qed.

Lemma asMovie_field_order (props props' : list (string * JSON)) :
  NoDup props.*1 → props ≡ₚ props' →
  asMovie (JObj props) = asMovie (JObj props').
Proof.
  intros Hnd Hperm. unfold asMovie, req, opt.
  by rewrite !(λ k, assoc_Permutation k props props' Hnd Hperm).
Qed.

(** C4 (as amended). Importing a bare array of entries replaces the entry
    list with exactly that array and leaves the challenge history as it
    was: the handler only writes the history when the document has a
    [challenges] property. *)
Theorem importData_bare_array (toastId : string) (ms : list Movie.t)
    (s : AppState) :
  ∃ s', importData toastId (Some (Some (JArr (movieToJSON <$> ms)))) s = Some s'
    ∧ movies s' = ms
    ∧ challengeHistory s' = challengeHistory s
    ∧ activeChallengeId s' = activeChallengeId s.
Proof.
  eexists. split.
  - unfold importData.
    change (truthy (getProp "movies" (JArr _)) || isArray (JArr _)) with true.
    cbv iota. change (getProp "movies" (JArr ?l)) with (@None JSON).
    cbv iota. rewrite asMovies_movieToJSON.
    change (truthy (getProp "challenges" (JArr _))) with false.
    reflexivity.
  - done.
Qed.

(** C4 as stated fails: a store with one challenge record still has it
    after a bare array was imported. *)
Lemma importData_bare_array_counterexample :
  let s := setChallengeHistory (λ _, [sampleRecord]) (emptyApp [alien]) in
  ∃ s', importData "t" (Some (Some (JArr [movieToJSON brazil]))) s = Some s'
    ∧ movies s' = [brazil]
    ∧ challengeHistory s' = [sampleRecord]
    ∧ challengeHistory s' ≠ [].
Proof.
  eexists. split; [vm_compute; reflexivity|]. split_and!; done.
Qed.

(** C5. Importing the document that [exportData] produced for a state [s],
    into any state [s0], restores the entry list and the challenge history
    of [s]; the reading is by property name, hence insensitive to the
    order of the fields. *)
Theorem import_export_roundtrip (toastId toastId' : string) (s s0 : AppState) :
  ∃ s', importData toastId' (Some (Some (fst (exportData toastId s)))) s0
        = Some s'
    ∧ movies s' = movies s
    ∧ challengeHistory s' = challengeHistory s.
Proof.
  eexists. split.
  - unfold exportData, importData, fst.
    change (getProp "movies" (JObj ?l)) with (Some (JArr (movieToJSON <$> movies s))).
    change (getProp "challenges" (JObj ?l))
      with (Some (JArr (recordToJSON <$> challengeHistory s))).
    cbn [truthy orb]. cbv iota.
    rewrite asMovies_movieToJSON. cbn [mbind option_bind].
    rewrite asChallenges_recordToJSON. reflexivity.
  - done.
Qed.

(** ** The array sort *)

Lemma Sorted_StronglySorted_on {A} (R : relation A) (P : A → Prop) (l : list A) :
  (∀ x y z, P x → P y → P z → R x y → R y z → R x z) →
  Forall P l → Sorted R l → StronglySorted R l.
Proof.
  intros Htrans HP Hs. induction Hs as [|x l Hs IH Hhd]; [constructor|].
  apply Forall_cons in HP as [Hx HP]. specialize (IH HP).
  constructor; [done|].
  destruct Hhd as [|y l' Hxy]; [constructor|].
  apply StronglySorted_inv in IH as [_ Hy].
  apply Forall_cons in HP as [HPy HP].
  constructor; [done|].
  rewrite Forall_forall in Hy, HP |- *. intros z Hz. eauto.
Qed.

Lemma StronglySorted_impl_on {A} (R R' : relation A) (P : A → Prop) (l : list A) :
  (∀ x y, P x → P y → R x y → R' x y) →
  Forall P l → StronglySorted R l → StronglySorted R' l.
Proof.
  intros Himpl HP Hs. induction Hs as [|x l Hs IH Hx]; [constructor|].
  apply Forall_cons in HP as [HPx HP]. constructor; [by apply IH|].
  rewrite Forall_forall in Hx, HP |- *. eauto.
Qed.

Lemma StronglySorted_lookup {A} (R : relation A) (l : list A) (i j : nat) (a b : A) :
  StronglySorted R l → (i < j)%nat → l !! i = Some a → l !! j = Some b → R a b.
Proof.
  intros Hs. revert i j. induction Hs as [|x l Hs IH Hx]; intros i j Hij Hi Hj.
  - done.
  - destruct j as [|j]; [lia|]. destruct i as [|i]; simpl in *.
    + simplify_eq. rewrite Forall_forall in Hx. apply Hx.
      by eapply list_elem_of_lookup_2.
    + apply (IH i j); [lia|done|done].
Qed.

(** ** The sort *)

Section SortProperties.
Context {A : Type} (comparefn : A → A → Num).

Lemma ascendingRun_app (previousElement : A) (rest : list A) :
  (ascendingRun comparefn previousElement rest).1
  ++ (ascendingRun comparefn previousElement rest).2 = rest.
Proof.
  revert previousElement. induction rest as [|x rest IH]; intros prev; [done|].
  simpl. case_decide; [done|]. specialize (IH x).
  destruct (ascendingRun comparefn x rest) as [run remaining]. simpl in *.
  by rewrite IH.
Qed.

Lemma descendingRun_app (previousElement : A) (rest : list A) :
  (descendingRun comparefn previousElement rest).1
  ++ (descendingRun comparefn previousElement rest).2 = rest.
Proof.
  revert previousElement. induction rest as [|x rest IH]; intros prev; [done|].
  simpl. case_decide; [|done]. specialize (IH x).
  destruct (descendingRun comparefn x rest) as [run remaining]. simpl in *.
  by rewrite IH.
Qed.

Lemma countRunAndMakeAscending_Permutation (l : list A) :
  (countRunAndMakeAscending comparefn l).1
  ++ (countRunAndMakeAscending comparefn l).2 ≡ₚ l.
Proof.
  destruct l as [|x0 [|x1 rest]]; [done|done|]. simpl. case_decide.
  - pose proof (descendingRun_app x1 rest) as Happ.
    destruct (descendingRun comparefn x1 rest) as [run remaining]. simpl in *.
    rewrite reverse_Permutation. simpl. by rewrite Happ.
  - pose proof (ascendingRun_app x1 rest) as Happ.
    destruct (ascendingRun comparefn x1 rest) as [run remaining]. simpl in *.
    by rewrite Happ.
Qed.

Lemma binaryInsert_Permutation (sorted : list A) (pivot : A) :
  binaryInsert comparefn sorted pivot ≡ₚ pivot :: sorted.
Proof.
  unfold binaryInsert. rewrite <-Permutation_middle. by rewrite take_drop.
Qed.

Lemma foldl_binaryInsert_Permutation (remaining run : list A) :
  foldl (binaryInsert comparefn) run remaining ≡ₚ run ++ remaining.
Proof.
  revert run. induction remaining as [|x remaining IH]; intros run; simpl.
  - by rewrite app_nil_r.
  - rewrite IH, binaryInsert_Permutation. simpl. apply Permutation_middle.
Qed.

Lemma sort_Permutation (l : list A) : sort comparefn l ≡ₚ l.
Proof.
  unfold sort. pose proof (countRunAndMakeAscending_Permutation l) as Hrun.
  destruct (countRunAndMakeAscending comparefn l) as [run remaining].
  by rewrite foldl_binaryInsert_Permutation.
Qed.

(** On elements among which the comparator agrees with a transitive
    relation [le], the result is in the order of [le]. *)
Section Ordered.
Context (le : relation A) (P : A → Prop).
Hypothesis le_trans : ∀ x y z, P x → P y → P z → le x y → le y z → le x z.
Hypothesis precedes_le : ∀ x y, P x → P y → precedes comparefn x y → le x y.
Hypothesis not_precedes_le :
  ∀ x y, P x → P y → ¬ precedes comparefn x y → le y x.

Lemma ascendingRun_Sorted (previousElement : A) (rest : list A) :
  P previousElement → Forall P rest →
  Sorted le (previousElement :: (ascendingRun comparefn previousElement rest).1).
Proof.
  revert previousElement. induction rest as [|x rest IH]; intros prev Hp Hrest.
  - repeat constructor.
  - apply Forall_cons in Hrest as [Hx Hrest]. simpl. case_decide as Hc.
    + repeat constructor.
    + specialize (IH x Hx Hrest).
      destruct (ascendingRun comparefn x rest) as [run remaining]. simpl in *.
      constructor; [done|]. constructor. by apply not_precedes_le.
Qed.

Lemma descendingRun_Sorted (previousElement : A) (rest : list A) :
  P previousElement → Forall P rest →
  Sorted (flip le)
    (previousElement :: (descendingRun comparefn previousElement rest).1).
Proof.
  revert previousElement. induction rest as [|x rest IH]; intros prev Hp Hrest.
  - repeat constructor.
  - apply Forall_cons in Hrest as [Hx Hrest]. simpl. case_decide as Hc.
    + specialize (IH x Hx Hrest).
      destruct (descendingRun comparefn x rest) as [run remaining]. simpl in *.
      constructor; [done|]. constructor. by apply precedes_le.
    + repeat constructor.
Qed.

Lemma countRunAndMakeAscending_Sorted (l : list A) :
  Forall P l → Sorted le (countRunAndMakeAscending comparefn l).1.
Proof.
  intros Hl. destruct l as [|x0 [|x1 rest]]; [constructor|repeat constructor|].
  apply Forall_cons in Hl as [H0 Hl]. apply Forall_cons in Hl as [H1 Hl].
  simpl. case_decide as Hc.
  - pose proof (descendingRun_Sorted x1 rest H1 Hl) as Hs.
    destruct (descendingRun comparefn x1 rest) as [run remaining]. simpl in *.
    apply (Sorted_reverse (flip le)). constructor; [done|].
    constructor. by apply precedes_le.
  - pose proof (ascendingRun_Sorted x1 rest H1 Hl) as Hs.
    destruct (ascendingRun comparefn x1 rest) as [run remaining]. simpl in *.
    constructor; [done|]. constructor. by apply not_precedes_le.
Qed.

Lemma insertionPoint_S (fuel : nat) (pivot : A) (sorted : list A)
    (left right : nat) :
  insertionPoint comparefn (S fuel) pivot sorted left right
  = if decide (left < right)%nat then
      match sorted !! (left + (right - left) / 2)%nat with
      | Some element =>
          if decide (precedes comparefn pivot element)
          then insertionPoint comparefn fuel pivot sorted left
                 (left + (right - left) / 2)%nat
          else insertionPoint comparefn fuel pivot sorted
                 (left + (right - left) / 2 + 1)%nat right
      | None => left
      end
    else left.
Proof. done. Qed.

Lemma insertionPoint_spec (fuel : nat) (pivot : A) (sorted : list A)
    (left right : nat) :
  StronglySorted le sorted → Forall P sorted → P pivot →
  (left ≤ right ≤ length sorted)%nat → (right - left ≤ fuel)%nat →
  (∀ i e, (i < left)%nat → sorted !! i = Some e → le e pivot) →
  (∀ j e, (right ≤ j)%nat → sorted !! j = Some e → le pivot e) →
  let k := insertionPoint comparefn fuel pivot sorted left right in
  (∀ i e, (i < k)%nat → sorted !! i = Some e → le e pivot)
  ∧ (∀ j e, (k ≤ j)%nat → sorted !! j = Some e → le pivot e).
Proof.
  intros Hs HP Hp. revert left right.
  induction fuel as [|fuel IH]; intros left right Hlr Hfuel Hleft Hright.
  - simpl. split; [done|]. intros j e Hj. apply Hright. lia.
  - cbv zeta. rewrite insertionPoint_S.
    case_decide as Hlt; [|split; [done|]; intros j e Hj; apply Hright; lia].
    set (mid := (left + (right - left) / 2)%nat).
    assert (Hmid : (left ≤ mid < right)%nat).
    { unfold mid. assert ((right - left) / 2 < right - left)%nat; [|lia].
      apply Nat.div_lt; lia. }
    destruct (lookup_lt_is_Some_2 sorted mid) as [element Hel]; [lia|].
    rewrite Hel.
    assert (Pel : P element).
    { rewrite Forall_forall in HP. apply HP. by eapply list_elem_of_lookup_2. }
    assert (HPat : ∀ i e, sorted !! i = Some e → P e).
    { intros i e Hi. rewrite Forall_forall in HP. apply HP.
      by eapply list_elem_of_lookup_2. }
    case_decide as Hc.
    + apply IH; [lia|lia|done|].
      intros j e Hj Hje.
      destruct (decide (j = mid)) as [->|Hne].
      * rewrite Hel in Hje. simplify_eq. by apply precedes_le.
      * apply (le_trans pivot element e); [done|done|by eapply HPat| |].
        -- by apply precedes_le.
        -- apply (StronglySorted_lookup le sorted mid j); [done|lia|done|done].
    + apply IH; [lia|lia| |done].
      intros i e Hi Hie.
      destruct (decide (i = mid)) as [->|Hne].
      * rewrite Hel in Hie. simplify_eq. by apply not_precedes_le.
      * destruct (decide (i < left)%nat); [by eapply Hleft|].
        apply (le_trans e element pivot); [by eapply HPat|done|done| |].
        -- apply (StronglySorted_lookup le sorted i mid); [done|lia|done|done].
        -- by apply not_precedes_le.
Qed.

Lemma binaryInsert_StronglySorted (sorted : list A) (pivot : A) :
  StronglySorted le sorted → Forall P sorted → P pivot →
  StronglySorted le (binaryInsert comparefn sorted pivot).
Proof.
  intros Hs HP Hp. unfold binaryInsert.
  destruct (insertionPoint_spec (length sorted) pivot sorted 0 (length sorted)
              Hs HP Hp) as [Hbefore Hafter]; [lia|lia| | |].
  { intros i e Hi. lia. }
  { intros j e Hj Hje. apply lookup_lt_Some in Hje. lia. }
  set (k := insertionPoint comparefn (length sorted) pivot sorted 0
              (length sorted)) in *.
  rewrite <-(take_drop k sorted) in Hs.
  apply StronglySorted_app in Hs as (Hcross & Hs1 & Hs2).
  apply StronglySorted_app_2; [|done|].
  - intros x1 x2 Hx1 [->|Hx2]%elem_of_cons; [|by apply Hcross].
    apply elem_of_take in Hx1 as (i & Hi & Hik). by apply (Hbefore i).
  - constructor; [done|]. apply Forall_forall. intros x Hx.
    apply list_elem_of_lookup in Hx as [j Hj]. rewrite lookup_drop in Hj.
    apply (Hafter (k + j)%nat); [lia|done].
Qed.

Lemma sort_StronglySorted (l : list A) :
  Forall P l → StronglySorted le (sort comparefn l).
Proof.
  intros HP. unfold sort.
  pose proof (countRunAndMakeAscending_Sorted l HP) as Hrun.
  pose proof (countRunAndMakeAscending_Permutation l) as Hperm.
  destruct (countRunAndMakeAscending comparefn l) as [run remaining].
  simpl in *.
  assert (HPall : Forall P (run ++ remaining)) by by rewrite Hperm.
  apply Forall_app in HPall as [HPrun HPrem].
  apply (Sorted_StronglySorted_on le P) in Hrun; [|done|done].
  clear Hperm. revert run Hrun HPrun.
  induction HPrem as [|x remaining Hx HPrem IH]; intros run Hrun HPrun; [done|].
  simpl. apply IH.
  - by apply binaryInsert_StronglySorted.
  - rewrite binaryInsert_Permutation. by constructor.
Qed.
End Ordered.
End SortProperties.

(** ** Numbers *)

Lemma toDouble_small (n : Z) : Z.abs n < 2 ^ 53 → toDouble n = Int n.
Proof. intros H. unfold toDouble. by rewrite bool_decide_eq_true_2. Qed.

Lemma toDouble_sign (n : Z) :
  toDouble n ≠ NaN ∧ numSign (toDouble n) = Z.sgn n.
Proof.
  unfold toDouble. case_bool_decide as Hsmall; [done|].
  assert (Ha : 2 ^ 53 ≤ Z.abs n) by lia.
  set (a := Z.abs n) in *.
  set (e := Z.log2 a - 52).
  assert (Hlog : 53 ≤ Z.log2 a).
  { apply Z.log2_le_pow2; lia. }
  assert (He : 1 ≤ e) by (unfold e; lia).
  assert (Hq : 1 ≤ a ≫ e).
  { rewrite Z.shiftr_div_pow2 by lia.
    apply Z.div_le_lower_bound; [lia|].
    pose proof (Z.log2_spec a ltac:(lia)) as [Hlow _].
    etrans; [|exact Hlow]. rewrite Z.mul_1_r.
    apply Z.pow_le_mono_r; lia. }
  set (q' := if bool_decide _ then a ≫ e + 1 else a ≫ e).
  assert (Hq' : 1 ≤ q') by (unfold q'; case_bool_decide; lia).
  assert (Hv : 0 < q' * 2 ^ e) by (apply Z.mul_pos_pos; lia).
  case_bool_decide.
  - split; [done|]. simpl. case_bool_decide; lia.
  - split; [done|]. simpl. rewrite Z.sgn_mul.
    rewrite (Z.sgn_pos (q' * 2 ^ e)) by done. lia.
Qed.

Lemma toDouble_negative (n : Z) : isNegative (toDouble n) ↔ n < 0.
Proof.
  destruct (toDouble_sign n) as [_ Hsign].
  destruct (toDouble n) as [|z|[]]; simpl in *; lia.
Qed.

Lemma sortCompare_toDouble {A} (comparefn : A → A → Num) (x y : A) (d : Z) :
  comparefn x y = toDouble d →
  numSign (sortCompare comparefn x y) = Z.sgn d
  ∧ (precedes comparefn x y ↔ d < 0)
  ∧ (Z.abs d < 2 ^ 53 → sortCompare comparefn x y = Int d).
Proof.
  intros Hc. unfold precedes, sortCompare. rewrite Hc.
  destruct (toDouble_sign d) as [Hnan Hsign].
  pose proof (toDouble_negative d) as Hneg.
  pose proof (toDouble_small d) as Hsmall.
  destruct (toDouble d); [done|..]; split_and!; done.
Qed.

(** ** Watchlist filters and sorts *)

Section WatchlistProperties.
Variable localeCompare : string → string → Z.

Lemma year_desc_compare (a b : Movie.t) (ya yb : Z) :
  parseInt (Movie.year a) = Int ya → parseInt (Movie.year b) = Int yb →
  numSign (sortCompare (watchlistCompare localeCompare YEAR_DESC) a b)
  = Z.sgn (yb - ya)
  ∧ (precedes (watchlistCompare localeCompare YEAR_DESC) a b ↔ yb - ya < 0)
  ∧ (Z.abs (yb - ya) < 2 ^ 53 →
       sortCompare (watchlistCompare localeCompare YEAR_DESC) a b
       = Int (yb - ya)).
Proof.
  intros Ha Hb. apply sortCompare_toDouble. simpl. by rewrite Ha, Hb.
Qed.

Lemma year_asc_compare (a b : Movie.t) (ya yb : Z) :
  parseInt (Movie.year a) = Int ya → parseInt (Movie.year b) = Int yb →
  numSign (sortCompare (watchlistCompare localeCompare YEAR_ASC) a b)
  = Z.sgn (ya - yb)
  ∧ (precedes (watchlistCompare localeCompare YEAR_ASC) a b ↔ ya - yb < 0)
  ∧ (Z.abs (ya - yb) < 2 ^ 53 →
       sortCompare (watchlistCompare localeCompare YEAR_ASC) a b
       = Int (ya - yb)).
Proof.
  intros Ha Hb. apply sortCompare_toDouble. simpl. by rewrite Ha, Hb.
Qed.

Lemma yearGe_trans (x y z : Movie.t) : yearGe x y → yearGe y z → yearGe x z.
Proof.
  intros (yx & yy & Hx & Hy & ?) (yy' & yz & Hy' & Hz & ?).
  rewrite Hy in Hy'. simplify_eq. exists yx, yz. split_and!; [done..|lia].
Qed.

Lemma year_desc_sorted (l : list Movie.t) :
  Forall finiteYear l →
  StronglySorted yearGe (sort (watchlistCompare localeCompare YEAR_DESC) l).
Proof.
  apply (sort_StronglySorted _ yearGe finiteYear).
  - intros x y z _ _ _. apply yearGe_trans.
  - intros x y [yx Hx] [yy Hy] Hp.
    apply (year_desc_compare x y yx yy Hx Hy) in Hp.
    exists yx, yy. split_and!; [done..|lia].
  - intros x y [yx Hx] [yy Hy] Hp.
    rewrite (proj1 (proj2 (year_desc_compare x y yx yy Hx Hy))) in Hp.
    exists yy, yx. split_and!; [done..|lia].
Qed.

Lemma year_asc_sorted (l : list Movie.t) :
  Forall finiteYear l →
  StronglySorted yearLe (sort (watchlistCompare localeCompare YEAR_ASC) l).
Proof.
  apply (sort_StronglySorted _ yearLe finiteYear).
  - intros x y z _ _ _ Hxy Hyz. unfold yearLe in *. by eapply yearGe_trans.
  - intros x y [yx Hx] [yy Hy] Hp.
    apply (year_asc_compare x y yx yy Hx Hy) in Hp.
    exists yy, yx. split_and!; [done..|lia].
  - intros x y [yx Hx] [yy Hy] Hp.
    rewrite (proj1 (proj2 (year_asc_compare x y yx yy Hx Hy))) in Hp.
    exists yx, yy. split_and!; [done..|lia].
Qed.

(** C7 (as amended). For the release-year sorts and entries whose year
    strings parse to a finite number (the double nearest to the integer
    written): the comparator has the sign of the difference of the parsed
    years (descending: [b - a]; ascending: [a - b]) and is that difference
    whenever it is below [2^53] in magnitude, so on such entries it is
    antisymmetric and transitive; and when every entry of the filtered
    list has such a year, the sorted watchlist is a permutation of the
    filtered list in which every entry's year is at least (descending) or
    at most (ascending) the year of every later one. *)
Theorem year_sort_numeric (streamingFilter : StreamingFilter)
    (genreFilter : string) (ms : list Movie.t) :
  (∀ m, m ∈ filteredWatchlist streamingFilter genreFilter ms → finiteYear m) →
  let desc := sortedWatchlist localeCompare YEAR_DESC streamingFilter genreFilter ms in
  let asc := sortedWatchlist localeCompare YEAR_ASC streamingFilter genreFilter ms in
  desc ≡ₚ filteredWatchlist streamingFilter genreFilter ms
  ∧ asc ≡ₚ filteredWatchlist streamingFilter genreFilter ms
  ∧ StronglySorted yearGe desc
  ∧ StronglySorted yearLe asc
  ∧ (∀ a b ya yb,
       parseInt (Movie.year a) = Int ya → parseInt (Movie.year b) = Int yb →
       numSign (sortCompare (watchlistCompare localeCompare YEAR_DESC) a b)
       = Z.sgn (yb - ya)
       ∧ numSign (sortCompare (watchlistCompare localeCompare YEAR_ASC) a b)
         = Z.sgn (ya - yb)
       ∧ (Z.abs (yb - ya) < 2 ^ 53 →
            sortCompare (watchlistCompare localeCompare YEAR_DESC) a b
            = Int (yb - ya)
            ∧ sortCompare (watchlistCompare localeCompare YEAR_ASC) a b
              = Int (ya - yb)))
  ∧ (∀ o a b c,
       o = YEAR_DESC ∨ o = YEAR_ASC →
       finiteYear a → finiteYear b → finiteYear c →
       let sign x y := numSign (sortCompare (watchlistCompare localeCompare o) x y) in
       sign a a = 0 ∧ sign a b = - sign b a
       ∧ (sign a b ≤ 0 → sign b c ≤ 0 → sign a c ≤ 0)).
Proof.
  intros Hnum desc asc. subst desc asc. unfold sortedWatchlist.
  apply Forall_forall in Hnum.
  split_and!.
  - apply sort_Permutation.
  - apply sort_Permutation.
  - by apply year_desc_sorted.
  - by apply year_asc_sorted.
  - intros a b ya yb Ha Hb.
    destruct (year_desc_compare a b ya yb Ha Hb) as (Hd & _ & Hde).
    destruct (year_asc_compare a b ya yb Ha Hb) as (Hs & _ & Hse).
    split_and!; [done|done|]. intros Hsmall. split; [by apply Hde|].
    apply Hse. lia.
  - intros o a b c Ho [ya Ha] [yb Hb] [yc Hc]. cbv zeta.
    destruct Ho as [-> | ->].
    + rewrite (proj1 (year_desc_compare a a ya ya Ha Ha)),
        (proj1 (year_desc_compare a b ya yb Ha Hb)),
        (proj1 (year_desc_compare b a yb ya Hb Ha)),
        (proj1 (year_desc_compare b c yb yc Hb Hc)),
        (proj1 (year_desc_compare a c ya yc Ha Hc)). lia.
    + rewrite (proj1 (year_asc_compare a a ya ya Ha Ha)),
        (proj1 (year_asc_compare a b ya yb Ha Hb)),
        (proj1 (year_asc_compare b a yb ya Hb Ha)),
        (proj1 (year_asc_compare b c yb yc Hb Hc)),
        (proj1 (year_asc_compare a c ya yc Ha Hc)). lia.
Qed.
End WatchlistProperties.

Lemma year_sort_numeric_witness :
  let desc := sortedWatchlist noCollation YEAR_DESC ALL "ALL"
                [alien; casablanca; dune] in
  desc = [dune; alien; casablanca] ∧ StronglySorted yearGe desc.
Proof.
  assert (Hnum : ∀ m, m ∈ filteredWatchlist ALL "ALL" [alien; casablanca; dune] →
                      finiteYear m).
  { intros m Hm. change (m ∈ [alien; casablanca; dune]) in Hm.
    repeat (apply elem_of_cons in Hm as [->|Hm]);
      [by eexists..|by apply not_elem_of_nil in Hm]. }
  destruct (year_sort_numeric noCollation ALL "ALL" [alien; casablanca; dune] Hnum)
    as (_ & _ & Hdesc & _).
  split; [reflexivity|exact Hdesc].
Defined.

(** C7 as stated fails. The year ["N/A"] parses to [NaN], every comparison
    with that entry yields [NaN], and the sort reads [NaN] as a tie: the
    comparator does not place the entry after the numeric years in
    descending order nor before them in ascending order, and it is not
    transitive (1942 ties with N/A, N/A ties with 2021, yet 1942 has to
    come after 2021). On the four-entry list below the sort, run as V8 runs
    it, leaves the entry second in both orders, and in descending order
    leaves 1979 before 2021. *)
Lemma year_sort_counterexample :
  parseInt (Movie.year brazil) = NaN
  ∧ parseInt (Movie.year alien) = Int 1979
  ∧ parseInt (Movie.year casablanca) = Int 1942
  ∧ parseInt (Movie.year dune) = Int 2021
  ∧ sortCompare (watchlistCompare noCollation YEAR_DESC) alien brazil = Int 0
  ∧ sortCompare (watchlistCompare noCollation YEAR_DESC) brazil alien = Int 0
  ∧ sortCompare (watchlistCompare noCollation YEAR_ASC) brazil alien = Int 0
  ∧ sortCompare (watchlistCompare noCollation YEAR_ASC) alien brazil = Int 0
  ∧ (sortCompare (watchlistCompare noCollation YEAR_DESC) casablanca brazil = Int 0
     ∧ sortCompare (watchlistCompare noCollation YEAR_DESC) brazil dune = Int 0
     ∧ sortCompare (watchlistCompare noCollation YEAR_DESC) casablanca dune
       = Int 79)
  ∧ sortedWatchlist noCollation YEAR_DESC ALL "ALL"
      [alien; brazil; casablanca; dune] = [alien; brazil; dune; casablanca]
  ∧ sortedWatchlist noCollation YEAR_ASC ALL "ALL"
      [alien; brazil; casablanca; dune] = [alien; brazil; casablanca; dune].
Proof.
  split_and!; by vm_compute.
Qed.

Section FilterProperties.
Variable localeCompare : string → string → Z.

(** C8. The watchlist computed for a platform filter [P] and a genre
    filter [G], both different from the sentinel, consists of exactly the
    not-watched entries whose platform is [P] and whose genre list
    contains [G]; with ["ALL"] for one filter only the other constrains,
    and with both only the watch status does. The sort option only
    arranges these entries. *)
Theorem sortedWatchlist_filters (watchlistSort : SortOption)
    (P : StreamingPlatform) (G : string) (ms : list Movie.t) :
  G ≠ "ALL" →
  sortedWatchlist localeCompare watchlistSort (Only P) G ms
    ≡ₚ filter (λ m, Movie.isWatched m = false ∧ Movie.platform m = Some P
                    ∧ G ∈ Movie.genre m) ms
  ∧ sortedWatchlist localeCompare watchlistSort ALL G ms
      ≡ₚ filter (λ m, Movie.isWatched m = false ∧ G ∈ Movie.genre m) ms
  ∧ sortedWatchlist localeCompare watchlistSort (Only P) "ALL" ms
      ≡ₚ filter (λ m, Movie.isWatched m = false ∧ Movie.platform m = Some P) ms
  ∧ sortedWatchlist localeCompare watchlistSort ALL "ALL" ms
      ≡ₚ filter (λ m, Movie.isWatched m = false) ms
  ∧ (∀ m, m ∈ sortedWatchlist localeCompare watchlistSort (Only P) G ms
          ↔ m ∈ ms ∧ Movie.isWatched m = false ∧ Movie.platform m = Some P
            ∧ G ∈ Movie.genre m).
Proof.
  intros HG.
  assert (H1 : sortedWatchlist localeCompare watchlistSort (Only P) G ms
    ≡ₚ filter (λ m, Movie.isWatched m = false ∧ Movie.platform m = Some P
                    ∧ G ∈ Movie.genre m) ms).
  { unfold sortedWatchlist. rewrite sort_Permutation.
    unfold filteredWatchlist, rawWatchList. rewrite decide_True by done.
    rewrite !list_filter_filter.
    erewrite list_filter_iff; [done|]. intros m. simpl. tauto. }
  split_and!.
  - exact H1.
  - unfold sortedWatchlist. rewrite sort_Permutation.
    unfold filteredWatchlist, rawWatchList. rewrite decide_True by done.
    rewrite list_filter_filter.
    erewrite list_filter_iff; [done|]. intros m. simpl. tauto.
  - unfold sortedWatchlist. rewrite sort_Permutation.
    unfold filteredWatchlist, rawWatchList. rewrite decide_False by (by intros []).
    rewrite list_filter_filter.
    erewrite list_filter_iff; [done|]. intros m. simpl. tauto.
  - unfold sortedWatchlist. rewrite sort_Permutation.
    unfold filteredWatchlist, rawWatchList. by rewrite decide_False by (by intros []).
  - intros m. rewrite H1, list_elem_of_filter. tauto.
Qed.
End FilterProperties.

(** The scenario of the specification: the genre filter "Drama" on a
    watchlist with one entry tagged Drama and Comédia and one tagged Ação
    returns only the first. *)
Lemma sortedWatchlist_filters_witness :
  sortedWatchlist noCollation DATE_DESC ALL "Drama" [brazil; dune] = [brazil]
  ∧ sortedWatchlist noCollation DATE_DESC (Only (Some Netflix)) "Drama"
      [alien; brazil; casablanca; dune]
    ≡ₚ filter (λ m, Movie.isWatched m = false
                    ∧ Movie.platform m = Some (Some Netflix)
                    ∧ "Drama" ∈ Movie.genre m)
         [alien; brazil; casablanca; dune].
Proof.
  split; [reflexivity|].
  refine (proj1 (sortedWatchlist_filters noCollation DATE_DESC (Some Netflix)
                   "Drama" [alien; brazil; casablanca; dune] _)).
  discriminate.
Defined.

(** ** Provider adapter *)

Lemma mapResults_spec (results : list Item.t) (existingMovies : list Movie.t) :
  (length (mapResults results existingMovies) ≤ 6)%nat
  ∧ ∀ c, c ∈ mapResults results existingMovies →
      (∀ m, m ∈ existingMovies → Movie.tmdbId m ≠ Some (SearchResult.tmdbId c))
      ∧ (∃ p, SearchResult.posterPath c = Some p ∧ p ≠ "").
Proof.
  unfold mapResults. split.
  - rewrite length_fmap, length_take. lia.
  - intros c (item & -> & Hitem)%list_elem_of_fmap.
    apply subseteq_take, list_elem_of_filter in Hitem as [[Hid Hposter] _].
    simpl. split.
    + intros m Hm Heq. apply Hid, elem_of_list_to_set, list_elem_of_fmap.
      by exists m.
    + destruct (Item.poster_path item) as [p|]; [|done]. by exists p.
Qed.

(** C9. Whatever the provider answers (or fails to), whatever seed is
    drawn and whatever the credential, [getRecommendations] returns at most
    six candidates; none carries the [tmdbId] of an entry of the full list,
    and each has a non-empty poster path. *)
Theorem getRecommendations_spec
    (fetchPopular : option (list Item.t))
    (fetchRecommendations : Z → option (list Item.t)) (r : nat)
    (watchedMovies allMovies : list Movie.t) (apiKey : string) :
  let res := getRecommendations fetchPopular fetchRecommendations r
               watchedMovies allMovies apiKey in
  (length res ≤ 6)%nat
  ∧ ∀ c, c ∈ res →
      (∀ m, m ∈ allMovies → Movie.tmdbId m ≠ Some (SearchResult.tmdbId c))
      ∧ (∃ p, SearchResult.posterPath c = Some p ∧ p ≠ "").
Proof.
  assert (Hnil : (length (@nil SearchResult.t) ≤ 6)%nat
                 ∧ ∀ c, c ∈ @nil SearchResult.t →
                     (∀ m, m ∈ allMovies →
                           Movie.tmdbId m ≠ Some (SearchResult.tmdbId c))
                     ∧ (∃ p, SearchResult.posterPath c = Some p ∧ p ≠ "")).
  { split; [simpl; lia|]. intros c Hc. by apply not_elem_of_nil in Hc. }
  cbv zeta. unfold getRecommendations.
  repeat (case_decide || case_match); try exact Hnil; apply mapResults_spec.
Qed.

Lemma getRecommendations_spec_witness :
  let res := getRecommendations (Some sampleResults) (λ _, None) 0 []
               [alien; eraserhead] "key" in
  SearchResult.tmdbId <$> res = [1; 4; 5; 6; 7; 8]
  ∧ (length res ≤ 6)%nat
  ∧ ∀ c, c ∈ res → Movie.tmdbId eraserhead ≠ Some (SearchResult.tmdbId c).
Proof.
  destruct (getRecommendations_spec (Some sampleResults) (λ _, None) 0 []
              [alien; eraserhead] "key") as [Hlen Hin].
  split; [by vm_compute|]. split; [exact Hlen|].
  intros c Hc. refine (proj1 (Hin c Hc) eraserhead _).
  apply list_elem_of_further, list_elem_of_here.
Defined.

(** ** Rating dialog *)

Lemma stars_lookup (i : nat) (star : Z) :
  RatingModal.stars !! i = Some star → 1 ≤ star ≤ 5.
Proof.
  unfold RatingModal.stars. intros H.
  do 5 (destruct i as [|i]; [simplify_eq/=; lia|]). done.
Qed.

Lemma RatingModal_step_invariant (movie : Movie.t) (st : RatingModal.State)
    (e : RatingModal.Event) :
  0 ≤ RatingModal.rating st ≤ 5 →
  0 ≤ RatingModal.rating (RatingModal.step movie st e).1 ≤ 5
  ∧ ∀ id rating review,
      RatingModal.onSave id rating review ∈ (RatingModal.step movie st e).2 →
      id = Movie.id movie ∧ 1 ≤ rating ≤ 5.
Proof.
  intros Hst. destruct e; simpl.
  1-3: destruct (RatingModal.stars !! i) as [star|] eqn:Hi; simpl;
       (split; [try done; apply stars_lookup in Hi; lia|]);
       intros ??? Hin; by apply not_elem_of_nil in Hin.
  - split; [done|]. intros ??? Hin. by apply not_elem_of_nil in Hin.
  - split; [done|]. intros ??? Hin.
    by apply list_elem_of_singleton in Hin.
  - case_decide; simpl; (split; [done|]); intros ??? Hin.
    + by apply not_elem_of_nil in Hin.
    + unfold RatingModal.handleSubmit in Hin.
      apply elem_of_cons in Hin as [Heq|Hin];
        [|by apply list_elem_of_singleton in Hin].
      simplify_eq. split; [done|lia].
Qed.

Lemma RatingModal_run_invariant (movie : Movie.t) (es : list RatingModal.Event)
    (st : RatingModal.State) :
  0 ≤ RatingModal.rating st ≤ 5 →
  ∀ id rating review,
    RatingModal.onSave id rating review ∈ (RatingModal.run movie st es).2 →
    id = Movie.id movie ∧ 1 ≤ rating ≤ 5.
Proof.
  revert st. induction es as [|e es IH]; intros st Hst id rating review; simpl.
  - intros Hin. by apply not_elem_of_nil in Hin.
  - destruct (RatingModal_step_invariant movie st e Hst) as [Hst' Hcalls].
    destruct (RatingModal.step movie st e) as [st1 calls1]. simpl in *.
    case_decide; simpl.
    + apply Hcalls.
    + specialize (IH st1 Hst' id rating review).
      destruct (RatingModal.run movie st1 es) as [st2 calls2]. simpl in *.
      rewrite elem_of_app. intros [Hin|Hin]; [by eapply Hcalls|by apply IH].
Qed.

(** C10. Every [onSave] call that a session with the rating dialog makes,
    from its initial state and for any sequence of user events, is for the
    dialog's movie and carries a rating among 1, 2, 3, 4, 5; and
    [handleRateMovie], the function wired to [onSave], stores whatever
    rating it is given without a check. *)
Theorem RatingModal_saves_valid_rating (movie : Movie.t)
    (es : list RatingModal.Event) :
  RatingModal.rating RatingModal.initial = 0
  ∧ RatingModal.step movie RatingModal.initial RatingModal.ClickSubmit
    = (RatingModal.initial, [])
  ∧ (∀ id rating review,
     RatingModal.onSave id rating review
       ∈ (RatingModal.run movie RatingModal.initial es).2 →
     id = Movie.id movie ∧ rating ∈ [1; 2; 3; 4; 5])
  ∧ (∀ recordId toastId now nowAt rating review s i m,
       movies s !! i = Some m →
       movies (handleRateMovie recordId toastId now nowAt (Movie.id m) rating
                 review s) !! i
       = Some (markWatched rating review (nowAt i) m)
       ∧ Movie.rating (markWatched rating review (nowAt i) m) = Some rating).
Proof.
  split_and!; [done|done| |].
  - intros id rating review Hin.
    destruct (RatingModal_run_invariant movie es RatingModal.initial)
      with (id := id) (rating := rating) (review := review) as [-> Hr];
      [simpl; lia|done|].
    split; [done|].
    assert (rating = 1 ∨ rating = 2 ∨ rating = 3 ∨ rating = 4 ∨ rating = 5)
      as Hcases by lia.
    rewrite !elem_of_cons. tauto.
  - intros recordId toastId now nowAt rating review s i m Hi.
    rewrite handleRateMovie_movies.
    erewrite lookup_imap_markWatched by done.
    by rewrite decide_True.
Qed.

(** A session: four stars, a comment, submit; and [handleRateMovie] called
    directly with the rating 0, which it stores. *)
Lemma RatingModal_saves_valid_rating_witness :
  (RatingModal.run alien RatingModal.initial
     [RatingModal.ClickSubmit; RatingModal.ClickStar 3;
      RatingModal.ChangeReview "ok"; RatingModal.ClickSubmit]).2
  = [RatingModal.onSave "a" 4 "ok"; RatingModal.onClose]
  ∧ (4 : Z) ∈ [1; 2; 3; 4; 5]
  ∧ Movie.rating <$>
      movies (handleRateMovie "r" "t" 50 (λ _, 51) "a" 0 "" (emptyApp [alien]))
    = [Some 0].
Proof.
  destruct (RatingModal_saves_valid_rating alien
              [RatingModal.ClickSubmit; RatingModal.ClickStar 3;
               RatingModal.ChangeReview "ok"; RatingModal.ClickSubmit])
    as (_ & _ & Hsave & _).
  split; [reflexivity|]. split; [|reflexivity].
  refine (proj2 (Hsave "a" 4 "ok" _)).
  apply list_elem_of_here.
Defined.

(** * Further properties *)

(** ** Image URLs *)

Lemma getImageUrl_http (path : option string) :
  String.prefix "http" (getImageUrl path) = true ∧ getImageUrl path ≠ "".
Proof.
  unfold getImageUrl. destruct path as [p|]; [|by split].
  case_decide; [by split|].
  destruct (String.prefix "http" p) eqn:Hp; [by split|].
  by split.
Qed.

(** X1. [getImageUrl] always returns a non-empty absolute URL (it starts
    with "http"), so applying it to its own result changes nothing; and a
    provider-relative path gives the same URL with or without its leading
    slash. *)
Theorem getImageUrl_normalises (path : option string) :
  String.prefix "http" (getImageUrl path) = true
  ∧ getImageUrl path ≠ ""
  ∧ getImageUrl (Some (getImageUrl path)) = getImageUrl path
  ∧ (∀ p, path = Some p → p ≠ "" → String.prefix "http" p = false →
          String.prefix "/" p = false →
          getImageUrl (Some ("/" +:+ p)) = getImageUrl path
          ∧ getImageUrl path = TMDB_IMAGE_BASE +:+ "/" +:+ p).
Proof.
  destruct (getImageUrl_http path) as [Hhttp Hne]. split_and!; [done|done| |].
  - unfold getImageUrl at 1. by rewrite decide_False, Hhttp by done.
  - intros p -> Hp Hh Hs. unfold getImageUrl.
    rewrite (decide_False (P := p = "")), Hh, Hs by done.
    change ("/" +:+ p) with (String "/"%char p).
    rewrite decide_False by done. simpl. split; [|done].
    by destruct p.
Qed.

Lemma getImageUrl_normalises_witness :
  getImageUrl (Some "/abc.jpg") = getImageUrl (Some "abc.jpg")
  ∧ getImageUrl (Some "abc.jpg") = "https://image.tmdb.org/t/p/w500/abc.jpg"
  ∧ getImageUrl (Some "http://x/y.png") = "http://x/y.png"
  ∧ getImageUrl (Some "") = noImage.
Proof.
  destruct (getImageUrl_normalises (Some "abc.jpg")) as (_ & _ & _ & H).
  destruct (H "abc.jpg" eq_refl) as [H1 H2]; [discriminate|reflexivity..|].
  split_and!; [exact H1|exact H2|reflexivity|reflexivity].
Defined.

(** ** Adding, updating and removing entries *)

Lemma uniqueIds_cons (m : Movie.t) (ms : list Movie.t) :
  uniqueIds (m :: ms) ↔ (∀ m', m' ∈ ms → Movie.id m' ≠ Movie.id m) ∧ uniqueIds ms.
Proof.
  unfold uniqueIds. rewrite fmap_cons, NoDup_cons, list_elem_of_fmap.
  split; intros [H1 H2]; (split; [|done]).
  - intros m' Hm' Heq. apply H1. by exists m'.
  - intros (m' & Heq & Hm'). by apply (H1 m' Hm').
Qed.

Lemma filter_other_ids (id : string) (ms : list Movie.t) :
  (∀ m, m ∈ ms → Movie.id m ≠ id) → filter (λ m, Movie.id m ≠ id) ms = ms.
Proof.
  induction ms as [|m ms IH]; [done|]. intros H.
  rewrite filter_cons_True by (apply H; left).
  rewrite IH; [done|]. intros m' Hm'. apply H. by right.
Qed.

(** X2. [addToWatchlist] puts the new entry, not watched and carrying the
    candidate's provider id, in front of the otherwise unchanged list; the
    active challenge and the history are untouched, the search box and the
    search results are cleared. When the generated id is not yet used, a
    query for it finds the new entry, ids stay pairwise different and a
    live active challenge stays live. *)
Theorem addToWatchlist_spec (newId toastId : string) (now : Z)
    (result : SearchResult.t) (ss : Session) :
  let ss' := addToWatchlist newId toastId now result ss in
  movies (store ss') = newMovie newId now result :: movies (store ss)
  ∧ Movie.isWatched (newMovie newId now result) = false
  ∧ Movie.tmdbId (newMovie newId now result) = Some (SearchResult.tmdbId result)
  ∧ activeChallengeId (store ss') = activeChallengeId (store ss)
  ∧ challengeHistory (store ss') = challengeHistory (store ss)
  ∧ searchQuery ss' = "" ∧ searchResults ss' = []
  ∧ findMovie newId (movies (store ss')) = Some (newMovie newId now result)
  ∧ (challengeLive (store ss) → challengeLive (store ss'))
  ∧ ((∀ m, m ∈ movies (store ss) → Movie.id m ≠ newId) →
     uniqueIds (movies (store ss)) → uniqueIds (movies (store ss'))).
Proof.
  cbv zeta. split_and!; try done.
  - simpl. unfold findMovie. simpl. by rewrite decide_True.
  - intros Hlive a Ha. simpl in *.
    destruct (Hlive a Ha) as [m [Hin Hid]%findMovie_Some].
    apply findMovie_is_Some. exists m. split; [by right|done].
  - intros Hfresh Hu. simpl. apply uniqueIds_cons. by split.
Qed.

Lemma addToWatchlist_spec_witness :
  let ss' := addToWatchlist "n" "t" 60 (sampleCandidate 4) sampleSession in
  Movie.id <$> movies (store ss') = ["n"; "a"; "e"]
  ∧ uniqueIds (movies (store ss')).
Proof.
  destruct (addToWatchlist_spec "n" "t" 60 (sampleCandidate 4) sampleSession)
    as (_ & _ & _ & _ & _ & _ & _ & _ & _ & H).
  split; [reflexivity|]. apply H.
  - intros m Hm. simpl in Hm.
    repeat (apply elem_of_cons in Hm as [->|Hm]);
      [discriminate..|by apply not_elem_of_nil in Hm].
  - unfold uniqueIds. simpl. compute_done.
Defined.

(** X3. Removing the entry that [addToWatchlist] just created, under an id
    that no other entry uses, gives back the entry list as it was before
    the addition. *)
Theorem addToWatchlist_removeMovie (newId toastId toastId' : string) (now : Z)
    (result : SearchResult.t) (ss : Session) :
  (∀ m, m ∈ movies (store ss) → Movie.id m ≠ newId) →
  movies (removeMovie true toastId' newId
            (store (addToWatchlist newId toastId now result ss)))
  = movies (store ss).
Proof.
  intros Hfresh.
  unfold removeMovie.
  assert (Hm : ∀ s, movies
    (addToast toastId' info "Filme removido."
       (if decide (activeChallengeId
                     (store (addToWatchlist newId toastId now result ss))
                   = Some newId)
        then setActiveChallengeId None s else s)) = movies s).
  { intros s. by case_decide. }
  rewrite Hm. simpl.
  rewrite filter_cons_False by (simpl; by intros []).
  by apply filter_other_ids.
Qed.

Lemma addToWatchlist_removeMovie_witness :
  movies (removeMovie true "t2" "n"
            (store (addToWatchlist "n" "t" 60 (sampleCandidate 4) sampleSession)))
  = [alien; eraserhead].
Proof.
  apply (addToWatchlist_removeMovie "n" "t" "t2" 60 (sampleCandidate 4)
           sampleSession).
  intros m Hm. simpl in Hm.
  repeat (apply elem_of_cons in Hm as [->|Hm]);
    [discriminate..|by apply not_elem_of_nil in Hm].
Defined.

(** ** Recommendations *)




(** X5. [addToWatchlist] removes from the stored recommendations every
    candidate with the provider id of the added one and keeps the others in
    order, so recommendations that duplicated no listed entry before the
    addition duplicate none after it. *)
Theorem addToWatchlist_keeps_recommendations_fresh
    (newId toastId : string) (now : Z) (result : SearchResult.t) (ss : Session) :
  let ss' := addToWatchlist newId toastId now result ss in
  recommendations ss'
  = filter (λ r, SearchResult.tmdbId r ≠ SearchResult.tmdbId result)
           (recommendations ss)
  ∧ (∀ r, r ∈ recommendations ss' →
          SearchResult.tmdbId r ≠ SearchResult.tmdbId result)
  ∧ (recommendationsFresh ss → recommendationsFresh ss').
Proof.
  cbv zeta. split_and!; [done| |].
  - intros r Hr. simpl in Hr. by apply list_elem_of_filter in Hr as [? _].
  - intros Hfresh r m Hr Hm. simpl in Hr, Hm.
    apply list_elem_of_filter in Hr as [Hne Hr].
    apply elem_of_cons in Hm as [->|Hm].
    + simpl. congruence.
    + by apply Hfresh.
Qed.

Lemma addToWatchlist_keeps_recommendations_fresh_witness :
  let ss' := addToWatchlist "n" "t2" 60 (sampleCandidate 4) sampleSession in
  SearchResult.tmdbId <$> recommendations ss' = [5]
  ∧ recommendationsFresh ss'.
Proof.
  assert (Hfresh : recommendationsFresh sampleSession).
  { intros r m Hr Hm. simpl in Hr, Hm.
    repeat (apply elem_of_cons in Hr as [->|Hr]);
      try (by apply not_elem_of_nil in Hr);
      repeat (apply elem_of_cons in Hm as [->|Hm]);
      try (by apply not_elem_of_nil in Hm); discriminate. }
  destruct (addToWatchlist_keeps_recommendations_fresh "n" "t2" 60
              (sampleCandidate 4) sampleSession) as (_ & _ & H).
  split; [reflexivity|exact (H Hfresh)].
Defined.

(** ** Updating entries *)

Lemma updateMovie_movies (toastId id : string) (updates : PartialMovie.t)
    (s : AppState) :
  movies (updateMovie toastId id updates s)
  = (λ m, if decide (Movie.id m = id) then spread m updates else m) <$> movies s.
Proof. done. Qed.

Lemma spread_empty (m : Movie.t) : spread m PartialMovie.empty = m.
Proof. by destruct m. Qed.

Lemma uniqueIds_lookup (ms : list Movie.t) (i j : nat) (m m' : Movie.t) :
  uniqueIds ms → ms !! i = Some m → ms !! j = Some m' →
  Movie.id m = Movie.id m' → i = j.
Proof.
  intros Hu Hi Hj Heq. eapply (NoDup_lookup _ i j (Movie.id m) Hu).
  - by rewrite list_lookup_fmap, Hi.
  - by rewrite list_lookup_fmap, Hj, Heq.
Qed.

(** Under pairwise different ids, rewriting "every entry with the id of the
    entry at position [i]" rewrites exactly that position. *)
Lemma fmap_by_id_unique (f : Movie.t → Movie.t) (ms : list Movie.t) (i : nat)
    (m : Movie.t) :
  uniqueIds ms → ms !! i = Some m →
  (λ m', if decide (Movie.id m' = Movie.id m) then f m' else m') <$> ms
  = <[i := f m]> ms.
Proof.
  intros Hu Hi. apply list_eq. intros j.
  rewrite list_lookup_fmap.
  destruct (decide (i = j)) as [<-|Hne].
  - rewrite list_lookup_insert_eq by by eapply lookup_lt_Some.
    rewrite Hi. simpl. by rewrite decide_True.
  - rewrite list_lookup_insert_ne by done.
    destruct (ms !! j) as [m'|] eqn:Hj; [|done]. simpl.
    case_decide as Heq; [|done].
    destruct Hne. symmetry in Heq. by eapply uniqueIds_lookup.
Qed.

(** X6. [updateMovie id updates] keeps the length and the order of the
    list, merges the update into every entry with that id and touches no
    other entry; when no entry has the id the list is unchanged, yet the
    success toast is raised all the same. An empty update changes no
    entry, and an update without an [id] property keeps every id, hence
    pairwise different ids and a live active challenge. *)
Theorem updateMovie_spec (toastId id : string) (updates : PartialMovie.t)
    (s : AppState) :
  let s' := updateMovie toastId id updates s in
  length (movies s') = length (movies s)
  ∧ (∀ i m, movies s !! i = Some m →
       movies s' !! i
       = Some (if decide (Movie.id m = id) then spread m updates else m))
  ∧ ((∀ m, m ∈ movies s → Movie.id m ≠ id) → movies s' = movies s)
  ∧ toasts s' = toasts s ++ [ToastMessage.mk toastId success "Atualizado."]
  ∧ activeChallengeId s' = activeChallengeId s
  ∧ challengeHistory s' = challengeHistory s
  ∧ movies (updateMovie toastId id PartialMovie.empty s) = movies s
  ∧ (PartialMovie.id updates = None →
       Movie.id <$> movies s' = Movie.id <$> movies s
       ∧ (uniqueIds (movies s) → uniqueIds (movies s'))
       ∧ (challengeLive s → challengeLive s')).
Proof.
  cbv zeta. rewrite !updateMovie_movies.
  assert (Hids : PartialMovie.id updates = None →
    Movie.id <$> ((λ m, if decide (Movie.id m = id) then spread m updates else m)
                    <$> movies s) = Movie.id <$> movies s).
  { intros Hnone. rewrite <-list_fmap_compose. apply list_fmap_ext.
    intros i m _. simpl. case_decide; [|done]. simpl. by rewrite Hnone. }
  split_and!; try done.
  - by rewrite length_fmap.
  - intros i m Hi. by rewrite list_lookup_fmap, Hi.
  - intros Hno. rewrite <-(list_fmap_id (movies s)) at 2.
    apply list_fmap_ext. intros i m Hi. simpl.
    rewrite decide_False; [done|]. apply Hno. by eapply list_elem_of_lookup_2.
  - rewrite <-(list_fmap_id (movies s)) at 2.
    apply list_fmap_ext. intros i m _. simpl.
    case_decide; [apply spread_empty|done].
  - intros Hnone. specialize (Hids Hnone). split_and!; [done| |].
    + unfold uniqueIds. by rewrite Hids.
    + intros Hlive a Ha. simpl in Ha.
      destruct (Hlive a Ha) as [m [Hin Hid]%findMovie_Some].
      apply findMovie_is_Some.
      assert (Ha' : a ∈ Movie.id <$> movies s).
      { apply list_elem_of_fmap. by exists m. }
      rewrite <-Hids in Ha'. apply list_elem_of_fmap in Ha' as (m' & -> & Hm').
      exists m'. split; [|done]. by rewrite updateMovie_movies.
Qed.

Lemma updateMovie_spec_witness :
  let patch := PartialMovie.mk None None (Some "Alien (1979)") None None None
                 None None None None None None None None None in
  let s' := updateMovie "t" "a" patch (emptyApp [brazil; alien]) in
  Movie.title <$> movies s' = ["Brazil"; "Alien (1979)"]
  ∧ movies (updateMovie "t" "zz" patch (emptyApp [brazil; alien]))
    = [brazil; alien]
  ∧ uniqueIds (movies s').
Proof.
  set (patch := PartialMovie.mk None None (Some "Alien (1979)") None None None
                  None None None None None None None None None).
  destruct (updateMovie_spec "t" "a" patch (emptyApp [brazil; alien]))
    as (_ & _ & _ & _ & _ & _ & _ & H).
  destruct (H eq_refl) as (_ & Hu & _).
  cbv zeta. split_and!; [reflexivity|reflexivity|].
  apply Hu. unfold uniqueIds. simpl. compute_done.
Defined.





(** X8. Saving the edit dialog rewrites, in the edited entry, the title,
    the year, the image reference and the platform with the dialog's
    values and nothing else; entries with other ids are untouched. Saving
    without an edit leaves the entry as it was when its platform is set
    (a name or null) and turns an absent platform into null. *)
Theorem saveEdit_spec (toastId : string) (i : nat) (m : Movie.t)
    (st : EditMovieModal.State) (s : AppState) :
  movies s !! i = Some m →
  movies (saveEdit toastId m st s) !! i
  = Some (Movie.mk (Movie.id m) (Movie.tmdbId m) (EditMovieModal.title st)
            (EditMovieModal.year st) (Movie.genre m) (Movie.description m)
            (EditMovieModal.imageUrl st) (Movie.isWatched m) (Movie.rating m)
            (Movie.userReview m) (Movie.addedAt m) (Movie.watchedAt m)
            (Some (EditMovieModal.platform st)) (Movie.pickedBy m)
            (Movie.tags m))
  ∧ (∀ j m', movies s !! j = Some m' → Movie.id m' ≠ Movie.id m →
       movies (saveEdit toastId m st s) !! j = Some m')
  ∧ (Movie.platform m ≠ None →
       movies (saveEdit toastId m (EditMovieModal.initial m) s) !! i = Some m)
  ∧ (Movie.platform m = None →
       Movie.platform <$>
         movies (saveEdit toastId m (EditMovieModal.initial m) s) !! i
       = Some (Some None))
  ∧ (uniqueIds (movies s) → Movie.platform m ≠ None →
       movies (saveEdit toastId m (EditMovieModal.initial m) s) = movies s).
Proof.
  intros Hi. unfold saveEdit. rewrite !updateMovie_movies.
  assert (Hinit : Movie.platform m ≠ None →
            spread m (EditMovieModal.saved (EditMovieModal.initial m)) = m).
  { destruct m as [? ? ? ? ? ? ? ? ? ? ? ? pf ? ?]. simpl.
    by destruct pf. }
  split_and!.
  - rewrite list_lookup_fmap, Hi. simpl. by rewrite decide_True.
  - intros j m' Hj Hne. rewrite list_lookup_fmap, Hj. simpl.
    by rewrite decide_False.
  - intros Hp. rewrite list_lookup_fmap, Hi. simpl.
    by rewrite decide_True, Hinit.
  - intros Hp. rewrite list_lookup_fmap, Hi. simpl.
    rewrite decide_True by done. simpl. by rewrite Hp.
  - intros Hu Hp. rewrite (fmap_by_id_unique _ (movies s) i m Hu Hi).
    rewrite Hinit by done. by apply list_insert_id.
Qed.

Lemma saveEdit_spec_witness :
  movies (saveEdit "t" alien (EditMovieModal.initial alien)
            (emptyApp [brazil; alien])) = [brazil; alien]
  ∧ Movie.title <$>
      movies (saveEdit "t" alien
                (EditMovieModal.mkState "Alien 2" "1986" "" None)
                (emptyApp [brazil; alien])) = ["Brazil"; "Alien 2"].
Proof.
  assert (Hu : uniqueIds (movies (emptyApp [brazil; alien]))).
  { unfold uniqueIds. simpl. compute_done. }
  destruct (saveEdit_spec "t" 1 alien (EditMovieModal.initial alien)
              (emptyApp [brazil; alien]) eq_refl) as (_ & _ & _ & _ & H).
  split; [apply H; [exact Hu|discriminate]|reflexivity].
Defined.

(** ** Toasts *)

(** X9. [removeToast id] drops exactly the toasts with that id and keeps
    the others in order; dismissing a toast right after [addToast] raised
    it, under an id no other toast has, restores the state. *)
Theorem removeToast_addToast (toastId : string) (type : ToastType)
    (message : string) (s : AppState) :
  toasts (removeToast toastId s)
  = filter (λ t, ToastMessage.id t ≠ toastId) (toasts s)
  ∧ movies (removeToast toastId s) = movies s
  ∧ ((∀ t, t ∈ toasts s → ToastMessage.id t ≠ toastId) →
       removeToast toastId (addToast toastId type message s) = s).
Proof.
  split_and!; [done|done|]. intros Hfresh.
  destruct s as [v ms a h rm bm ts]. unfold removeToast, addToast, setToasts.
  simpl in *. f_equal.
  rewrite filter_app, filter_cons_False, filter_nil, app_nil_r
    by (simpl; by intros []).
  induction ts as [|t ts IH]; [done|].
  rewrite filter_cons_True by (apply Hfresh; left).
  f_equal. apply IH. intros t' Ht'. apply Hfresh. by right.
Qed.

Lemma removeToast_addToast_witness :
  removeToast "t2" (addToast "t2" info "x" (addToast "t1" error "y" (emptyApp [])))
  = addToast "t1" error "y" (emptyApp []).
Proof.
  refine (proj2 (proj2 (removeToast_addToast "t2" info "x"
                          (addToast "t1" error "y" (emptyApp [])))) _).
  intros t Ht. simpl in Ht. apply list_elem_of_singleton in Ht as ->.
  discriminate.
Defined.

(** ** Provider adapter: genres, search and the seed of recommendations *)

Lemma GENRES_names_nonempty (id : Z) (name : string) :
  GENRES !! id = Some name → name ≠ "".
Proof.
  assert (H : map_Forall (λ _ name, name ≠ "") GENRES) by compute_done.
  apply H.
Qed.

Lemma getGenreNames_length (ids : list Z) : (length (getGenreNames ids) ≤ 3)%nat.
Proof. unfold getGenreNames. rewrite length_take. lia. Qed.

(** X10. [getGenreNames] returns at most three names, in the order of the
    ids; each is the table's name of one of the given ids. Since no name
    of the table is empty, [filter(Boolean)] drops exactly the ids the
    table does not know. *)
Theorem getGenreNames_spec (ids : list Z) :
  (length (getGenreNames ids) ≤ 3)%nat
  ∧ getGenreNames ids = take 3 (omap (λ id, GENRES !! id) ids)
  ∧ (∀ name, name ∈ getGenreNames ids →
       name ≠ "" ∧ ∃ id, id ∈ ids ∧ GENRES !! id = Some name)
  ∧ getGenreNames [] = [].
Proof.
  assert (Heq : getGenreNames ids = take 3 (omap (λ id, GENRES !! id) ids)).
  { unfold getGenreNames. f_equal.
    induction ids as [|id ids IH]; [done|].
    rewrite fmap_cons.
    repeat change (omap ?f (?x :: ?l))
      with (match f x with Some y => y :: omap f l | None => omap f l end).
    cbv beta. rewrite IH.
    destruct (GENRES !! id) as [name|] eqn:Hid; [|done].
    rewrite decide_True; [done|]. by eapply GENRES_names_nonempty. }
  split_and!; [|done| |done].
  - rewrite Heq, length_take. lia.
  - intros name Hname. rewrite Heq in Hname.
    apply subseteq_take, list_elem_of_omap in Hname as (id & Hid & Hname).
    split; [by eapply GENRES_names_nonempty|by exists id].
Qed.

Lemma getGenreNames_spec_witness :
  getGenreNames [18; 7; 35; 28; 12] = ["Drama"; "Comédia"; "Ação"]
  ∧ "Drama" ≠ "".
Proof.
  destruct (getGenreNames_spec [18; 7; 35; 28; 12]) as (_ & _ & H & _).
  split; [by vm_compute|].
  apply (H "Drama"). assert (Heq : getGenreNames [18; 7; 35; 28; 12]
                                   = ["Drama"; "Comédia"; "Ação"]) by by vm_compute.
  rewrite Heq. apply list_elem_of_here.
Defined.

(** X11. [searchMovies] answers with the empty list when the credential is
    empty or the request fails; otherwise it keeps, in the provider's
    order, exactly the results that have a poster, copies their id and
    poster, and gives each at most three genre names. Unlike
    recommendations the answer is neither capped nor compared with the
    entry list. *)
Theorem searchMovies_spec (fetchSearch : string → option (list Item.t))
    (query apiKey : string) :
  searchMovies fetchSearch query "" = []
  ∧ (fetchSearch query = None → searchMovies fetchSearch query apiKey = [])
  ∧ (∀ results, apiKey ≠ "" → fetchSearch query = Some results →
       SearchResult.tmdbId <$> searchMovies fetchSearch query apiKey
       = Item.id <$> filter (λ item, truthyString (Item.poster_path item)) results
       ∧ SearchResult.posterPath <$> searchMovies fetchSearch query apiKey
         = Item.poster_path
             <$> filter (λ item, truthyString (Item.poster_path item)) results)
  ∧ (∀ c, c ∈ searchMovies fetchSearch query apiKey →
       (∃ p, SearchResult.posterPath c = Some p ∧ p ≠ "")
       ∧ (length (SearchResult.genre c) ≤ 3)%nat
       ∧ SearchResult.description c ≠ "").
Proof.
  split_and!.
  - done.
  - intros Hnone. unfold searchMovies. rewrite Hnone. by case_decide.
  - intros results Hkey Hres. unfold searchMovies.
    rewrite decide_False, Hres by done. clear Hres.
    induction results as [|item results IH]; [done|].
    rewrite fmap_cons. simpl in IH.
    destruct (decide (truthyString (Item.poster_path item))) as [Hp|Hp].
    + rewrite !filter_cons_True by done. rewrite !fmap_cons.
      destruct IH as [-> ->]. done.
    + rewrite !filter_cons_False by done. done.
  - intros c. unfold searchMovies. case_decide; [by intros ?%not_elem_of_nil|].
    destruct (fetchSearch query) as [results|]; [|by intros ?%not_elem_of_nil].
    intros [Hp (item & -> & _)%list_elem_of_fmap]%list_elem_of_filter.
    simpl in *. split_and!.
    + destruct (Item.poster_path item) as [p|]; [by exists p|done].
    + apply getGenreNames_length.
    + case_decide as Ho; [|done].
      by destruct (Item.overview item).
Qed.

Lemma searchMovies_spec_witness :
  SearchResult.tmdbId <$> searchMovies (λ _, Some sampleResults) "q" "key"
  = [1; 3; 4; 5; 6; 7; 8; 9]
  ∧ SearchResult.genre <$> searchMovies (λ _, Some [sampleItem 1 (Some "/1.jpg")])
                             "q" "key"
    = [["Drama"; "Comédia"; "Ação"]].
Proof.
  destruct (searchMovies_spec (λ _, Some sampleResults) "q" "key")
    as (_ & _ & H & _).
  destruct (H sampleResults) as [H1 _]; [discriminate|reflexivity|].
  split; [rewrite H1; by vm_compute|by vm_compute].
Defined.

Lemma nonempty_length {A} (l : list A) :
  l ≠ [] → (0 < length l)%nat ∧ length l ≠ 0%nat.
Proof. destruct l; [done|]. simpl. lia. Qed.

(** X12. The seed of [getRecommendations]: with a credential, if some
    watched entry has a rating of at least 4 and a provider id, the
    request is for the recommendations of such an entry; otherwise, if
    some watched entry has a provider id, of one of those; the popular
    list is requested only when no watched entry has a provider id. A
    failed request gives the empty list. *)
Theorem getRecommendations_seed
    (fetchPopular : option (list Item.t))
    (fetchRecommendations : Z → option (list Item.t)) (r : nat)
    (watchedMovies allMovies : list Movie.t) (apiKey : string) :
  apiKey ≠ "" →
  let res := getRecommendations fetchPopular fetchRecommendations r
               watchedMovies allMovies apiKey in
  let answer (o : option (list Item.t)) :=
    match o with Some results => mapResults results allMovies | None => [] end in
  ((∃ m, m ∈ watchedMovies ∧ 4 ≤ default 0 (Movie.rating m) ∧ hasTmdbId m) →
     ∃ seed tid, seed ∈ watchedMovies ∧ 4 ≤ default 0 (Movie.rating seed)
       ∧ Movie.tmdbId seed = Some tid ∧ tid ≠ 0
       ∧ res = answer (fetchRecommendations tid))
  ∧ ((∀ m, m ∈ watchedMovies → ¬ (4 ≤ default 0 (Movie.rating m) ∧ hasTmdbId m)) →
     (∃ m, m ∈ watchedMovies ∧ hasTmdbId m) →
     ∃ seed tid, seed ∈ watchedMovies ∧ Movie.tmdbId seed = Some tid ∧ tid ≠ 0
       ∧ res = answer (fetchRecommendations tid))
  ∧ ((∀ m, m ∈ watchedMovies → ¬ hasTmdbId m) → res = answer fetchPopular).
Proof.
  intros Hkey. cbv zeta. unfold getRecommendations.
  rewrite decide_False by done.
  set (good := filter (λ m, (4 ≤ default 0 (Movie.rating m)) ∧ hasTmdbId m)
                 watchedMovies).
  set (withId := filter hasTmdbId watchedMovies).
  assert (Hpick : ∀ l : list Movie.t, l ≠ [] →
            ∃ seed, l !! randomIndex r (length l) = Some seed ∧ seed ∈ l).
  { intros l Hl.
    destruct (lookup_lt_is_Some_2 l (randomIndex r (length l))) as [seed Hs].
    { unfold randomIndex. apply Nat.mod_upper_bound. by destruct l. }
    exists seed. split; [done|by eapply list_elem_of_lookup_2]. }
  assert (Htid : ∀ seed, hasTmdbId seed →
            ∃ tid, Movie.tmdbId seed = Some tid ∧ tid ≠ 0).
  { intros seed. unfold hasTmdbId. destruct (Movie.tmdbId seed); [eauto|done]. }
  split_and!.
  - intros (m & Hm & Hr & Hid).
    assert (Hgood : good ≠ []).
    { intros Hnil. assert (m ∈ good) as Hin by (apply list_elem_of_filter; auto).
      rewrite Hnil in Hin. by apply not_elem_of_nil in Hin. }
    rewrite (decide_True (P := (0 < length good)%nat))
      by by apply nonempty_length.
    rewrite (decide_False (P := length good = 0%nat))
      by by apply nonempty_length.
    destruct (Hpick good Hgood) as (seed & -> & Hin).
    apply list_elem_of_filter in Hin as [[Hr' Hid'] Hin].
    destruct (Htid seed Hid') as (tid & Htd & Hne).
    exists seed, tid. rewrite Htd. simpl. split_and!; done.
  - intros Hnogood (m & Hm & Hid).
    assert (Hgood : good = []).
    { destruct good as [|g ?] eqn:Hg; [done|].
      assert (g ∈ good) as [? ?]%list_elem_of_filter by (rewrite Hg; left).
      by destruct (Hnogood g). }
    rewrite Hgood.
    rewrite (decide_False (P := (0 < length (@nil Movie.t))%nat))
      by (simpl; lia).
    assert (Hwith : withId ≠ []).
    { intros Hnil. assert (m ∈ withId) as Hin by (apply list_elem_of_filter; auto).
      rewrite Hnil in Hin. by apply not_elem_of_nil in Hin. }
    rewrite (decide_False (P := length withId = 0%nat))
      by by apply nonempty_length.
    destruct (Hpick withId Hwith) as (seed & -> & Hin).
    apply list_elem_of_filter in Hin as [Hid' Hin].
    destruct (Htid seed Hid') as (tid & Htd & Hne).
    exists seed, tid. rewrite Htd. simpl. split_and!; done.
  - intros Hnone.
    assert (Hgood : good = []).
    { destruct good as [|g ?] eqn:Hg; [done|].
      assert (g ∈ good) as [[_ ?] ?]%list_elem_of_filter by (rewrite Hg; left).
      by destruct (Hnone g). }
    assert (Hwith : withId = []).
    { destruct withId as [|g ?] eqn:Hg; [done|].
      assert (g ∈ withId) as [? ?]%list_elem_of_filter by (rewrite Hg; left).
      by destruct (Hnone g). }
    rewrite Hgood.
    rewrite (decide_False (P := (0 < length (@nil Movie.t))%nat))
      by (simpl; lia).
    rewrite Hwith. by rewrite decide_True.
Qed.

Lemma getRecommendations_seed_witness :
  getRecommendations None
    (λ tid, if decide (tid = 3) then Some sampleResults else None) 5
    [markWatched 2 "" 1 alien; markWatched 5 "" 1 eraserhead]
    [alien; eraserhead] "key"
  = mapResults sampleResults [alien; eraserhead].
Proof.
  destruct (getRecommendations_seed None
              (λ tid, if decide (tid = 3) then Some sampleResults else None) 5
              [markWatched 2 "" 1 alien; markWatched 5 "" 1 eraserhead]
              [alien; eraserhead] "key") as (H & _ & _); [discriminate|].
  destruct H as (seed & tid & Hin & Hr & Htid & _ & ->).
  { exists (markWatched 5 "" 1 eraserhead).
    split; [apply list_elem_of_further, list_elem_of_here|].
    split; [simpl; lia|]. simpl. discriminate. }
  apply elem_of_cons in Hin as [->|Hin].
  { simpl in Hr. lia. }
  apply list_elem_of_singleton in Hin as ->. simpl in Htid.
  injection Htid as <-. reflexivity.
Defined.

(** ** The battle: opening pair and rounds *)





Lemma handleBattlePick_pool_empty (r : nat) (winner m0 m1 : Movie.t)
    (s : AppState) :
  battleMovies s = Some (m0, m1) →
  battlePool winner (m0, m1) (movies s) = [] →
  battleMovies (handleBattlePick r winner s) = None
  ∧ randomMovie (handleBattlePick r winner s) = Some winner
  ∧ movies (handleBattlePick r winner s) = movies s.
Proof.
  intros Hb Hnil. unfold handleBattlePick. by rewrite Hb, Hnil.
Qed.

(** X14. A round of the battle. When the pool (not watched, other than the
    winner and the two entries shown) is not empty, the winner stays and
    the new challenger is a not-watched entry of the list that is neither
    the winner nor one of the two entries just shown; nothing is selected.
    When the pool is empty the battle closes and the winner becomes the
    selection. Neither case changes the entry list. *)
Theorem handleBattlePick_spec (r : nat) (winner m0 m1 : Movie.t) (s : AppState) :
  battleMovies s = Some (m0, m1) →
  let s' := handleBattlePick r winner s in
  movies s' = movies s
  ∧ (battlePool winner (m0, m1) (movies s) ≠ [] →
       ∃ next, battleMovies s' = Some (winner, next)
         ∧ next ∈ movies s ∧ Movie.isWatched next = false
         ∧ Movie.id next ≠ Movie.id winner
         ∧ Movie.id next ≠ Movie.id m0 ∧ Movie.id next ≠ Movie.id m1
         ∧ randomMovie s' = randomMovie s)
  ∧ (battlePool winner (m0, m1) (movies s) = [] →
       battleMovies s' = None ∧ randomMovie s' = Some winner).
Proof.
  intros Hb. cbv zeta. unfold handleBattlePick. rewrite Hb.
  set (pool := battlePool winner (m0, m1) (movies s)).
  destruct (decide (pool = [])) as [Hnil|Hne].
  - rewrite Hnil. simpl. split_and!; done.
  - rewrite decide_False by by apply nonempty_length.
    destruct (lookup_lt_is_Some_2 pool (randomIndex r (length pool)))
      as [next Hnext].
    { unfold randomIndex. apply Nat.mod_upper_bound. by apply nonempty_length. }
    rewrite Hnext. split_and!; [done| |done].
    intros _. exists next.
    apply list_elem_of_lookup_2 in Hnext.
    unfold pool, battlePool in Hnext.
    apply list_elem_of_filter in Hnext as [(?&?&?&?) ?].
    split_and!; done.
Qed.

Lemma handleBattlePick_spec_witness :
  battleMovies
    (handleBattlePick 0 alien
       (setBattleMovies (Some (alien, brazil))
          (emptyApp [alien; brazil; casablanca])))
  = Some (alien, casablanca).
Proof.
  destruct (handleBattlePick_spec 0 alien alien brazil
              (setBattleMovies (Some (alien, brazil))
                 (emptyApp [alien; brazil; casablanca])) eq_refl)
    as (_ & H & _).
  destruct H as (next & Hb & _); [by vm_compute|].
  rewrite Hb. vm_compute in Hb. by injection Hb as <-.
Defined.

(** X15. With only two contenders the battle lasts one round: if every
    not-watched entry has the id of one of the two entries shown, a click
    on either card closes the battle and selects the clicked entry. *)
Theorem clickCard_two_contenders (c : Card) (r : nat) (m0 m1 : Movie.t)
    (s : AppState) :
  battleMovies s = Some (m0, m1) →
  (∀ m, m ∈ movies s → Movie.isWatched m = false →
        Movie.id m = Movie.id m0 ∨ Movie.id m = Movie.id m1) →
  battleMovies (clickCard c r s) = None
  ∧ randomMovie (clickCard c r s)
    = Some (match c with LeftCard => m0 | RightCard => m1 end)
  ∧ movies (clickCard c r s) = movies s.
Proof.
  intros Hb Htwo. unfold clickCard. rewrite Hb.
  set (winner := match c with LeftCard => m0 | RightCard => m1 end).
  destruct (handleBattlePick_pool_empty r winner m0 m1 s Hb) as (? & ? & ?);
    [|done].
  destruct (battlePool winner (m0, m1) (movies s)) as [|x l] eqn:Hp; [done|].
  assert (Hx : x ∈ battlePool winner (m0, m1) (movies s)) by (rewrite Hp; left).
  apply list_elem_of_filter in Hx as [(Hw & _ & H0 & H1) Hin]. simpl in *.
  destruct (Htwo x Hin Hw); done.
Qed.

Lemma clickCard_two_contenders_witness :
  randomMovie
    (clickCard LeftCard 9
       (setBattleMovies (Some (alien, brazil))
          (emptyApp [alien; markWatched 3 "" 1 dune; brazil])))
  = Some alien.
Proof.
  refine (proj1 (proj2 (clickCard_two_contenders LeftCard 9 alien brazil
    (setBattleMovies (Some (alien, brazil))
       (emptyApp [alien; markWatched 3 "" 1 dune; brazil])) eq_refl _))).
  intros m Hm Hw. simpl in Hm.
  repeat (apply elem_of_cons in Hm as [->|Hm]); try (by apply not_elem_of_nil in Hm);
    [by left|discriminate|by right].
Defined.

(** ** Sorts with a consistent comparator *)

(** A comparator that is the difference of an integer key, as a double,
    sorts by that key, on every list. *)
Lemma sort_by_key {A} (comparefn : A → A → Num) (key : A → Z)
    (R : relation A) (l : list A) :
  (∀ a b, comparefn a b = toDouble (key a - key b)) →
  (∀ a b, key a ≤ key b → R a b) →
  StronglySorted R (sort comparefn l).
Proof.
  intros Hcmp HkR.
  assert (HR : ∀ a b, precedes comparefn a b ↔ key a < key b).
  { intros a b.
    rewrite (proj1 (proj2 (sortCompare_toDouble comparefn a b _ (Hcmp a b)))).
    lia. }
  eapply (StronglySorted_impl_on (λ a b, key a ≤ key b) _ (λ _, True)).
  - intros a b _ _ Hab. by apply HkR.
  - by apply Forall_true.
  - apply (sort_StronglySorted _ (λ a b, key a ≤ key b) (λ _, True)).
    + intros x y z _ _ _. lia.
    + intros x y _ _ Hp%HR. lia.
    + intros x y _ _ Hp. rewrite HR in Hp. lia.
    + by apply Forall_true.
Qed.

Section RatedProperties.
Variable localeCompare : string → string → Z.

(** X16. The rated list is a permutation of the watched entries (of those
    whose genre list contains the genre filter, unless it is "ALL").
    Sorted by rating, every entry's rating is at least that of every later
    entry, an absent rating counting as 0; by default every entry was
    watched no earlier than every later one, and with the oldest-first
    option no later. These three orders hold on every list. *)
Theorem sortedRated_spec (ratedSort : SortOption) (genreFilter : string)
    (ms : list Movie.t) :
  sortedRated localeCompare ratedSort genreFilter ms
    ≡ₚ filter (λ m, Movie.isWatched m = true
                    ∧ (genreFilter = "ALL" ∨ genreFilter ∈ Movie.genre m)) ms
  ∧ StronglySorted ratingGe (sortedRated localeCompare RATING_DESC genreFilter ms)
  ∧ StronglySorted watchedAtGe
      (sortedRated localeCompare DATE_DESC genreFilter ms)
  ∧ StronglySorted (flip watchedAtGe)
      (sortedRated localeCompare DATE_ASC genreFilter ms).
Proof.
  split_and!.
  - unfold sortedRated. rewrite sort_Permutation. unfold rawWatchedMovies.
    case_decide as HG.
    + rewrite list_filter_filter. erewrite list_filter_iff; [done|].
      intros m. simpl. tauto.
    + erewrite list_filter_iff; [done|]. intros m. simpl. tauto.
  - unfold sortedRated.
    apply (sort_by_key _ (λ m, - default 0 (Movie.rating m))).
    + intros a b. simpl. f_equal. lia.
    + intros a b. unfold ratingGe. lia.
  - unfold sortedRated.
    apply (sort_by_key _ (λ m, - default 0 (Movie.watchedAt m))).
    + intros a b. simpl. f_equal. lia.
    + intros a b. unfold watchedAtGe. lia.
  - unfold sortedRated.
    apply (sort_by_key _ (λ m, default 0 (Movie.watchedAt m))).
    + intros a b. done.
    + intros a b. unfold flip, watchedAtGe. lia.
Qed.
End RatedProperties.

Lemma sortedRated_spec_witness :
  let watched := [markWatched 3 "" 100 alien; dune; markWatched 5 "" 90 brazil;
                  markWatched 4 "" 110 casablanca] in
  Movie.id <$> sortedRated noCollation RATING_DESC "ALL" watched = ["b"; "c"; "a"]
  ∧ Movie.id <$> sortedRated noCollation DATE_DESC "Drama" watched = ["c"; "b"]
  ∧ StronglySorted ratingGe (sortedRated noCollation RATING_DESC "ALL" watched).
Proof.
  cbv zeta. split_and!; [by vm_compute|by vm_compute|].
  apply (sortedRated_spec noCollation RATING_DESC "ALL").
Defined.

Section WatchlistOrderProperties.
Variable localeCompare : string → string → Z.

(** X17. Sorted by addition date the watchlist is in order on every list:
    newest first by default (also for an option the watchlist does not
    know, such as the rating order), oldest first with the ascending
    option. *)
Theorem sortedWatchlist_by_date (streamingFilter : StreamingFilter)
    (genreFilter : string) (ms : list Movie.t) :
  StronglySorted addedAtGe
    (sortedWatchlist localeCompare DATE_DESC streamingFilter genreFilter ms)
  ∧ StronglySorted addedAtGe
      (sortedWatchlist localeCompare RATING_DESC streamingFilter genreFilter ms)
  ∧ StronglySorted (flip addedAtGe)
      (sortedWatchlist localeCompare DATE_ASC streamingFilter genreFilter ms).
Proof.
  unfold sortedWatchlist. split_and!.
  - apply (sort_by_key _ (λ m, - Movie.addedAt m)).
    + intros a b. simpl. f_equal. lia.
    + intros a b. unfold addedAtGe. lia.
  - apply (sort_by_key _ (λ m, - Movie.addedAt m)).
    + intros a b. simpl. f_equal. lia.
    + intros a b. unfold addedAtGe. lia.
  - apply (sort_by_key _ (λ m, Movie.addedAt m)).
    + intros a b. done.
    + intros a b. unfold flip, addedAtGe. lia.
Qed.

(** X18. The "Roleta" button selects an entry of the watchlist as it is
    displayed: a not-watched entry of the list that passes the platform
    and genre filters in force. With nothing displayed the click changes
    nothing. The entry list and the active challenge are never touched. *)
Theorem pickRandom_spec (watchlistSort : SortOption)
    (streamingFilter : StreamingFilter) (genreFilter : string) (r : nat)
    (s : AppState) :
  let shown := sortedWatchlist localeCompare watchlistSort streamingFilter
                 genreFilter (movies s) in
  let s' := pickRandom localeCompare watchlistSort streamingFilter genreFilter
              r s in
  movies s' = movies s ∧ activeChallengeId s' = activeChallengeId s
  ∧ (shown = [] → s' = s)
  ∧ (shown ≠ [] →
       ∃ m, randomMovie s' = Some m ∧ m ∈ shown
         ∧ m ∈ movies s ∧ Movie.isWatched m = false
         ∧ (∀ p, streamingFilter = Only p → Movie.platform m = Some p)
         ∧ (genreFilter ≠ "ALL" → genreFilter ∈ Movie.genre m)).
Proof.
  cbv zeta. unfold pickRandom.
  set (shown := sortedWatchlist _ _ _ _ _).
  split_and!.
  - by destruct (shown !! _).
  - by destruct (shown !! _).
  - intros ->. done.
  - intros Hne.
    destruct (lookup_lt_is_Some_2 shown (randomIndex r (length shown)))
      as [m Hm].
    { unfold randomIndex. apply Nat.mod_upper_bound. by apply nonempty_length. }
    rewrite Hm. exists m. apply list_elem_of_lookup_2 in Hm.
    split_and!; [done|done|..].
    all: pose proof Hm as Hf; unfold shown, sortedWatchlist in Hf;
      rewrite sort_Permutation in Hf; unfold filteredWatchlist, rawWatchList in Hf.
    + destruct streamingFilter; case_decide;
        repeat (apply list_elem_of_filter in Hf as [? Hf]); done.
    + destruct streamingFilter; case_decide;
        repeat (apply list_elem_of_filter in Hf as [? Hf]); done.
    + intros p ->. case_decide;
        repeat (apply list_elem_of_filter in Hf as [? Hf]); done.
    + intros HG. rewrite decide_True in Hf by done.
      by apply list_elem_of_filter in Hf as [? Hf].
Qed.
End WatchlistOrderProperties.

Lemma sortedWatchlist_by_date_witness :
  Movie.id <$> sortedWatchlist noCollation DATE_DESC ALL "ALL"
                 [alien; brazil; casablanca; dune] = ["d"; "c"; "b"; "a"]
  ∧ Movie.id <$> sortedWatchlist noCollation DATE_ASC ALL "ALL"
                   [dune; brazil; casablanca; alien] = ["a"; "b"; "c"; "d"]
  ∧ StronglySorted addedAtGe
      (sortedWatchlist noCollation DATE_DESC ALL "ALL"
         [alien; brazil; casablanca; dune]).
Proof.
  split_and!; [by vm_compute|by vm_compute|].
  apply (sortedWatchlist_by_date noCollation ALL "ALL").
Defined.

Lemma pickRandom_spec_witness :
  randomMovie (pickRandom noCollation DATE_DESC (Only (Some Netflix)) "Drama" 7
                 (emptyApp [alien; brazil; casablanca; dune]))
  = Some casablanca
  ∧ pickRandom noCollation DATE_DESC (Only None) "Drama" 7
      (emptyApp [alien; brazil; casablanca; dune])
    = emptyApp [alien; brazil; casablanca; dune].
Proof.
  destruct (pickRandom_spec noCollation DATE_DESC (Only (Some Netflix)) "Drama" 7
              (emptyApp [alien; brazil; casablanca; dune]))
    as (_ & _ & _ & H).
  destruct (pickRandom_spec noCollation DATE_DESC (Only None) "Drama" 7
              (emptyApp [alien; brazil; casablanca; dune]))
    as (_ & _ & H0 & _).
  split; [|apply H0; by vm_compute].
  destruct H as (m & -> & Hm & _); [by vm_compute|].
  vm_compute in Hm. apply list_elem_of_singleton in Hm. by rewrite Hm.
Defined.

(** ** Statistics *)

Lemma countRating_length (dist : list nat) (m : Movie.t) :
  length (countRating dist m) = length dist.
Proof.
  unfold countRating. destruct (Movie.rating m); [|done].
  case_decide; [apply length_alter|done].
Qed.

Lemma countRating_lookup (dist : list nat) (m : Movie.t) (j : nat) :
  countRating dist m !! j
  = (if decide (Movie.rating m = Some (Z.of_nat j + 1) ∧ (j < 5)%nat)
     then S else id) <$> dist !! j.
Proof.
  unfold countRating. destruct (Movie.rating m) as [rating|].
  - case_decide as Hr.
    + destruct (decide (Z.to_nat (rating - 1) = j)) as [<-|Hne].
      * rewrite list_lookup_alter_eq. rewrite decide_True; [done|].
        split; [f_equal|]; lia.
      * rewrite list_lookup_alter_ne by done.
        rewrite decide_False; [by destruct (dist !! j)|].
        intros [[= ->] _]. lia.
    + rewrite decide_False; [by destruct (dist !! j)|].
      intros [[= ->] ?]. lia.
  - rewrite decide_False; [by destruct (dist !! j)|]. by intros [? _].
Qed.

Lemma foldl_countRating_lookup (watched : list Movie.t) (dist : list nat)
    (j : nat) :
  (j < 5)%nat →
  foldl countRating dist watched !! j
  = (λ n, n + length (ratedWith (Z.of_nat j + 1) watched))%nat <$> dist !! j.
Proof.
  intros Hj. revert dist. induction watched as [|m watched IH]; intros dist.
  - simpl. destruct (dist !! j); simpl; [f_equal; lia|done].
  - simpl. rewrite IH, countRating_lookup. unfold ratedWith.
    destruct (dist !! j) as [n|]; [|done]. simpl. f_equal.
    destruct (decide (Movie.rating m = Some (Z.of_nat j + 1))) as [Hm|Hm].
    + rewrite decide_True, filter_cons_True by done. simpl. lia.
    + rewrite decide_False, filter_cons_False by tauto. done.
Qed.

Lemma foldl_countRating_length (watched : list Movie.t) (dist : list nat) :
  length (foldl countRating dist watched) = length dist.
Proof.
  revert dist. induction watched as [|m watched IH]; intros dist; [done|].
  simpl. by rewrite IH, countRating_length.
Qed.

(** X19. The rating histogram has five buckets, for five stars down to
    one: the bucket for [k] stars counts exactly the entries it is given
    whose rating is [k]. Entries without a rating or with a rating outside
    1..5 are counted in no bucket, so the buckets add up to at most the
    number of entries. *)
Theorem ratingDistribution_spec (watched : list Movie.t) :
  length (ratingDistribution watched) = 5%nat
  ∧ (∀ k : nat, (1 ≤ k ≤ 5)%nat →
       ratingDistribution watched !! (5 - k)%nat
       = Some (length (ratedWith (Z.of_nat k) watched)))
  ∧ sum_list (ratingDistribution watched) = length (filter ratedInRange watched)
  ∧ (sum_list (ratingDistribution watched) ≤ length watched)%nat.
Proof.
  assert (Hlen : length (foldl countRating [0; 0; 0; 0; 0]%nat watched) = 5%nat).
  { by rewrite foldl_countRating_length. }
  assert (Hbucket : ∀ k : nat, (1 ≤ k ≤ 5)%nat →
    ratingDistribution watched !! (5 - k)%nat
    = Some (length (ratedWith (Z.of_nat k) watched))).
  { intros k Hk. unfold ratingDistribution.
    rewrite reverse_lookup by (rewrite Hlen; lia). rewrite Hlen.
    replace (5 - S (5 - k))%nat with (k - 1)%nat by lia.
    rewrite foldl_countRating_lookup by lia.
    replace (Z.of_nat (k - 1) + 1) with (Z.of_nat k) by lia.
    assert (Hz : [0; 0; 0; 0; 0]%nat !! (k - 1)%nat = Some 0%nat).
    { destruct k as [|[|[|[|[|[|]]]]]]; simpl; try lia; done. }
    by rewrite Hz. }
  assert (Hsum : sum_list (ratingDistribution watched)
                 = length (filter ratedInRange watched)).
  { pose proof (Hbucket 1%nat ltac:(lia)) as H1.
    pose proof (Hbucket 2%nat ltac:(lia)) as H2.
    pose proof (Hbucket 3%nat ltac:(lia)) as H3.
    pose proof (Hbucket 4%nat ltac:(lia)) as H4.
    pose proof (Hbucket 5%nat ltac:(lia)) as H5.
    assert (Hl : length (ratingDistribution watched) = 5%nat).
    { unfold ratingDistribution. by rewrite length_reverse. }
    destruct (ratingDistribution watched) as [|d5 [|d4 [|d3 [|d2 [|d1 [|]]]]]];
      try discriminate.
    simpl in *. simplify_eq. unfold ratedWith. clear.
    induction watched as [|m watched IH]; [done|].
    rewrite !filter_cons.
    destruct (decide (ratedInRange m)) as [Hin|Hout]; unfold ratedInRange in *;
      repeat case_decide; simpl;
      destruct (Movie.rating m) as [k|] eqn:E; simplify_eq; try done;
      repeat match goal with
      | H : Some ?a ≠ Some ?b |- _ =>
          assert (a ≠ b) by (intros ->; by apply H); clear H
      end; simpl in *; lia. }
  split_and!; [by unfold ratingDistribution; rewrite length_reverse|done|done|].
  rewrite Hsum. apply length_filter.
Qed.

Lemma ratingDistribution_spec_witness :
  let watched := [markWatched 5 "" 1 alien; markWatched 3 "" 1 brazil;
                  markWatched 5 "" 1 casablanca; markWatched 0 "" 1 dune] in
  ratingDistribution watched = [2; 0; 1; 0; 0]%nat
  ∧ ratingDistribution watched !! 0%nat = Some (length (ratedWith 5 watched)).
Proof.
  cbv zeta. split; [reflexivity|].
  destruct (ratingDistribution_spec
              [markWatched 5 "" 1 alien; markWatched 3 "" 1 brazil;
               markWatched 5 "" 1 casablanca; markWatched 0 "" 1 dune])
    as (_ & H & _).
  apply (H 5%nat). lia.
Defined.

Lemma foldl_ratingSum (watched : list Movie.t) (acc : Z) :
  foldl (λ acc c, acc + default 0 (Movie.rating c)) acc watched
  = acc + ratingSum watched.
Proof.
  unfold ratingSum. revert acc.
  induction watched as [|m watched IH]; intros acc; simpl; [lia|].
  rewrite IH, (IH (0 + _)). lia.
Qed.

Lemma ratingSum_cons (m : Movie.t) (watched : list Movie.t) :
  ratingSum (m :: watched) = default 0 (Movie.rating m) + ratingSum watched.
Proof. unfold ratingSum at 1. simpl. by rewrite foldl_ratingSum. Qed.

(** X20. The average on the dashboard never divides by zero: the divisor
    is the number of entries, or 1 when there is none, and then the sum is
    0. When every entry has a rating between 1 and 5 the sum lies between
    the number of entries and five times that number, so the average lies
    between 1 and 5; an entry without a rating adds nothing to the sum but
    still counts in the divisor. *)
Theorem ratingAverage_operands (watched : list Movie.t) :
  1 ≤ ratingDivisor watched
  ∧ (watched = [] → ratingSum watched = 0 ∧ ratingDivisor watched = 1)
  ∧ (watched ≠ [] → ratingDivisor watched = Z.of_nat (length watched))
  ∧ (Forall ratedInRange watched → watched ≠ [] →
       ratingDivisor watched ≤ ratingSum watched ≤ 5 * ratingDivisor watched)
  ∧ (∀ m, Movie.rating m = None →
       ratingSum (m :: watched) = ratingSum watched
       ∧ ratingDivisor (m :: watched) = Z.of_nat (length watched) + 1).
Proof.
  assert (Hdiv : watched ≠ [] → ratingDivisor watched = Z.of_nat (length watched)).
  { intros Hne. unfold ratingDivisor.
    rewrite decide_False; [done|]. by apply nonempty_length. }
  split_and!.
  - unfold ratingDivisor. case_decide; lia.
  - by intros ->.
  - done.
  - intros Hall Hne. rewrite Hdiv by done. clear Hdiv Hne.
    induction Hall as [|m watched Hm Hall IH]; [simpl; unfold ratingSum; simpl; lia|].
    rewrite ratingSum_cons. simpl length.
    unfold ratedInRange in Hm. destruct (Movie.rating m); [simpl|done]. lia.
  - intros m Hm. rewrite ratingSum_cons, Hm. simpl. split; [lia|].
    unfold ratingDivisor. simpl. lia.
Qed.

Lemma ratingAverage_operands_witness :
  ratingSum [markWatched 5 "" 1 alien; markWatched 3 "" 1 brazil] = 8
  ∧ ratingDivisor [markWatched 5 "" 1 alien; markWatched 3 "" 1 brazil] = 2
  ∧ 2 ≤ 8 ≤ 5 * 2.
Proof.
  destruct (ratingAverage_operands
              [markWatched 5 "" 1 alien; markWatched 3 "" 1 brazil])
    as (_ & _ & _ & H & _).
  split; [reflexivity|]. split; [reflexivity|].
  apply H; [|discriminate].
  repeat constructor; simpl; lia.
Defined.

(** ** The genre options *)





(** ** Pages *)

Lemma iter_loadMore (k : nat) :
  Nat.iter k loadMore ITEMS_PER_PAGE = (12 * (k + 1))%nat.
Proof.
  induction k as [|k IH]; [done|]. simpl. rewrite IH.
  unfold loadMore, ITEMS_PER_PAGE. lia.
Qed.

(** X22. Paging: after [k] clicks on "Carregar Mais" the cards shown are
    the first [12 (k + 1)] entries of the sorted list, in its order. The
    button is offered exactly while some entry is not shown; each click
    while it is offered shows at least one more card and at most twelve
    more; after [length / 12] clicks every entry is shown. *)
Theorem loadMore_pages {A} (sorted : list A) (k : nat) :
  let count := Nat.iter k loadMore ITEMS_PER_PAGE in
  visibleCards count sorted = take (12 * (k + 1)) sorted
  ∧ visibleCards count sorted `prefix_of` sorted
  ∧ (¬ showsLoadMore count sorted ↔ visibleCards count sorted = sorted)
  ∧ (showsLoadMore count sorted →
       (length (visibleCards count sorted)
        < length (visibleCards (loadMore count) sorted)
        ≤ length (visibleCards count sorted) + 12)%nat)
  ∧ ¬ showsLoadMore (Nat.iter (length sorted / 12) loadMore ITEMS_PER_PAGE)
        sorted.
Proof.
  cbv zeta. rewrite !iter_loadMore. unfold visibleCards, showsLoadMore, loadMore.
  split_and!.
  - done.
  - apply prefix_take.
  - split.
    + intros Hge. apply take_ge. lia.
    + intros Heq Hlt. apply (f_equal length) in Heq.
      rewrite length_take in Heq. lia.
  - intros Hlt. rewrite !length_take. unfold ITEMS_PER_PAGE. lia.
  - pose proof (Nat.div_mod_eq (length sorted) 12).
    pose proof (Nat.mod_upper_bound (length sorted) 12). lia.
Qed.

Lemma loadMore_pages_witness :
  length (visibleCards (Nat.iter 1 loadMore ITEMS_PER_PAGE) (replicate 30 alien))
  = 24%nat
  ∧ (24 < length (visibleCards (loadMore (Nat.iter 1 loadMore ITEMS_PER_PAGE))
                    (replicate 30 alien)) ≤ 24 + 12)%nat.
Proof.
  destruct (loadMore_pages (replicate 30 alien) 1) as (_ & _ & _ & H & _).
  split; [reflexivity|].
  apply H. unfold showsLoadMore. rewrite length_replicate.
  change (Nat.iter 1 loadMore ITEMS_PER_PAGE) with 24%nat. lia.
Defined.

(** ** The stored active challenge *)

(** X23. What the persistence effect writes for the active challenge, the
    mount effect reads back: the same id, or no challenge when there was
    none. The one exception is an active challenge whose id is the empty
    string, which is stored as "no challenge". No other key of the store
    is touched. *)
Theorem activeChallenge_persisted (activeChallengeId : option string)
    (localStorage : gmap string string) :
  (activeChallengeId ≠ Some "" →
     loadActiveChallenge (persistActiveChallenge activeChallengeId localStorage)
     = activeChallengeId)
  ∧ loadActiveChallenge (persistActiveChallenge (Some "") localStorage) = None
  ∧ (∀ key, key ≠ "cinecasal_active_challenge" →
       persistActiveChallenge activeChallengeId localStorage !! key
       = localStorage !! key).
Proof.
  unfold loadActiveChallenge, persistActiveChallenge. split_and!.
  - intros Hne. destruct activeChallengeId as [id|].
    + rewrite decide_True by congruence.
      rewrite lookup_insert_eq. rewrite decide_True by congruence. done.
    + by rewrite lookup_delete_eq.
  - rewrite decide_False by (by intros []). by rewrite lookup_delete_eq.
  - intros key Hkey. destruct activeChallengeId as [id|]; [case_decide|].
    + by rewrite lookup_insert_ne.
    + by rewrite lookup_delete_ne.
    + by rewrite lookup_delete_ne.
Qed.

Lemma activeChallenge_persisted_witness :
  loadActiveChallenge
    (persistActiveChallenge (Some "a") {["cinecasal_tmdb_key" := "k"]})
  = Some "a".
Proof.
  refine (proj1 (activeChallenge_persisted (Some "a")
                   {["cinecasal_tmdb_key" := "k"]}) _).
  discriminate.
Defined.

(** ** Sessions: what every handler keeps *)












Section SessionProperties.
Variable localeCompare : string → string → Z.
Variable fetchPopular : option (list Item.t).
Variable fetchRecommendations : Z → option (list Item.t).


End SessionProperties.


(** ** Rating outside a challenge *)

(** X25. [handleRateMovie id] when [id] is not the active challenge: the
    active challenge and the history are untouched, every entry with the
    id is marked watched with the rating and the review, the others are
    kept, and the toast reads "Avaliação salva!"; with no entry of that id
    the list is unchanged, yet the toast is raised and the view changes.
    When [id] is the active challenge but names no entry, the challenge is
    cleared and the completion toast raised although no record is added. *)
Theorem handleRateMovie_other_cases (recordId toastId : string) (now : Z)
    (nowAt : nat → Z) (id : string) (rating : Z) (review : string)
    (s : AppState) :
  let s' := handleRateMovie recordId toastId now nowAt id rating review s in
  currentView s' = RATED
  ∧ length (movies s') = length (movies s)
  ∧ (∀ i m, movies s !! i = Some m →
       movies s' !! i
       = Some (if decide (Movie.id m = id)
               then markWatched rating review (nowAt i) m else m))
  ∧ ((∀ m, m ∈ movies s → Movie.id m ≠ id) → movies s' = movies s)
  ∧ (activeChallengeId s ≠ Some id →
       activeChallengeId s' = activeChallengeId s
       ∧ challengeHistory s' = challengeHistory s
       ∧ toasts s'
         = toasts s ++ [ToastMessage.mk toastId success "Avaliação salva!"])
  ∧ (activeChallengeId s = Some id → findMovie id (movies s) = None →
       activeChallengeId s' = None
       ∧ challengeHistory s' = challengeHistory s
       ∧ movies s' = movies s
       ∧ toasts s'
         = toasts s
           ++ [ToastMessage.mk toastId success "🏆 Desafio Concluído!"]).
Proof.
  cbv zeta.
  assert (Hsame : (∀ m, m ∈ movies s → Movie.id m ≠ id) →
            movies (handleRateMovie recordId toastId now nowAt id rating review s)
            = movies s).
  { intros Hno. rewrite handleRateMovie_movies. apply list_eq. intros i.
    rewrite list_lookup_imap. destruct (movies s !! i) as [m|] eqn:Hi; [|done].
    simpl. rewrite decide_False; [done|].
    apply Hno. by eapply list_elem_of_lookup_2. }
  split_and!.
  - unfold handleRateMovie. by destruct (bool_decide _).
  - by rewrite handleRateMovie_movies, length_imap.
  - intros i m Hi. rewrite handleRateMovie_movies.
    by apply lookup_imap_markWatched.
  - done.
  - intros Hne. unfold handleRateMovie.
    by rewrite bool_decide_eq_false_2.
  - intros Hact Hnone. split_and!.
    + unfold handleRateMovie. rewrite bool_decide_eq_true_2 by done.
      by rewrite Hnone.
    + unfold handleRateMovie. rewrite bool_decide_eq_true_2 by done.
      by rewrite Hnone.
    + apply Hsame. by apply findMovie_None.
    + unfold handleRateMovie. rewrite bool_decide_eq_true_2 by done.
      by rewrite Hnone.
Qed.

Lemma handleRateMovie_other_cases_witness :
  let s := setActiveChallengeId (Some "a") (emptyApp [alien; brazil]) in
  let s' := handleRateMovie "r" "t" 70 (λ _, 70) "b" 4 "bom" s in
  activeChallengeId s' = Some "a" ∧ challengeHistory s' = []
  ∧ Movie.rating <$> movies s' = [None; Some 4].
Proof.
  destruct (handleRateMovie_other_cases "r" "t" 70 (λ _, 70) "b" 4 "bom"
              (setActiveChallengeId (Some "a") (emptyApp [alien; brazil])))
    as (_ & _ & _ & _ & H & _).
  destruct H as (Ha & Hh & _); [discriminate|].
  cbv zeta. split_and!; [exact Ha|exact Hh|reflexivity].
Defined.

(** ** Backup documents: what an import keeps and what it rejects *)





